(** * projen tasks: the task model ([src/task.ts]) and the task inspector
      ([src/cli/tasks.ts])

    A [Task] is a JavaScript object that owns a mutable array of steps and a
    mutable environment object.  Both are reached through references, and
    [_renderSpec] hands those very references out, so the development keeps
    an explicit store of arrays, objects and task instances and every method
    is a computation over that store which either returns or throws. *)

From Stdlib Require Import Ascii String.
From stdpp Require Import gmap strings list fin_maps.

Local Open Scope string_scope.
Local Open Scope list_scope.

(** ** Values *)

(** References into the store. *)
Abbreviation loc := positive.

(** The double-quote character, used in the error messages. *)
Definition dquote : string := String "034"%char EmptyString.

(** JavaScript truthiness of a [string | undefined]: [undefined] and the
    empty string are falsy, every other string is truthy.  [truthy s] is
    the string when the test [if (s)] passes. *)
Definition truthy (s : option string) : option string :=
  match s with
  | Some (String c s') => Some (String c s')
  | _ => None
  end.

(** Modelled from the spec: [TaskStepOptions] is declared in
    [task-model.ts], which is not part of the sources at hand; the data
    model says each step "may carry its own environment overrides, a name,
    and a per-step skip condition". *)
Record TaskStepOptions := {
  opt_name : option string;
  opt_env : option (gmap string string);
  opt_condition : option string;
}.

(** The default argument [options = {}]. *)
Definition no_options : TaskStepOptions :=
  {| opt_name := None; opt_env := None; opt_condition := None |}.

(** [TaskStep]: the four tags of [task.ts] plus the option fields that the
    object spread [...options] copies into the step.  A step holds strings
    only: there is no field through which it could point into the store. *)
Record TaskStep := {
  step_exec : option string;
  step_spawn : option string;
  step_say : option string;
  step_builtin : option string;
  step_name : option string;
  step_env : option (gmap string string);
  step_condition : option string;
}.

(** [{ exec: command, ...options }] *)
Definition exec_step (command : string) (options : TaskStepOptions) : TaskStep :=
  {| step_exec := Some command; step_spawn := None; step_say := None;
     step_builtin := None; step_name := opt_name options;
     step_env := opt_env options; step_condition := opt_condition options |}.

(** [{ spawn: subtask.name, ...options }] *)
Definition spawn_step (subtask_name : string) (options : TaskStepOptions) : TaskStep :=
  {| step_exec := None; step_spawn := Some subtask_name; step_say := None;
     step_builtin := None; step_name := opt_name options;
     step_env := opt_env options; step_condition := opt_condition options |}.

(** [{ say: message, ...options }] *)
Definition say_step (message : string) (options : TaskStepOptions) : TaskStep :=
  {| step_exec := None; step_spawn := None; step_say := Some message;
     step_builtin := None; step_name := opt_name options;
     step_env := opt_env options; step_condition := opt_condition options |}.

(** [{ builtin: name }] *)
Definition builtin_step (name : string) : TaskStep :=
  {| step_exec := None; step_spawn := None; step_say := None;
     step_builtin := Some name; step_name := None;
     step_env := None; step_condition := None |}.

(** [TaskOptions]: the properties the constructor reads.  [env] and
    [requiredEnv] are references, because the constructor keeps the caller's
    object and the caller's array. *)
Record TaskOptions := {
  props_description : option string;
  props_env : option loc;
  props_condition : option string;
  props_cwd : option string;
  props_requiredEnv : option loc;
  props_exec : option string;
}.

(** The default argument [props = {}]. *)
Definition no_props : TaskOptions :=
  {| props_description := None; props_env := None; props_condition := None;
     props_cwd := None; props_requiredEnv := None; props_exec := None |}.

(** The fields of a [Task] instance.  [_steps], [_env] and [requiredEnv] are
    references. *)
Record TaskObj := {
  name : string;
  condition : option string;
  _steps : loc;
  _env : loc;
  cwd : option string;
  requiredEnv : option loc;
  _locked : bool;
  _description : option string;
}.

(** The object literal returned by [_renderSpec]: [env], [requiredEnv] and
    [steps] are the references stored in the task, the other fields are
    values. *)
Record TaskSpec := {
  spec_name : string;
  spec_description : option string;
  spec_env : loc;
  spec_requiredEnv : option loc;
  spec_steps : loc;
  spec_condition : option string;
  spec_cwd : option string;
}.

(** ** The store *)

(** [arrays] are the [TaskStep[]] arrays, [objects] the
    [{ [name: string]: string }] objects (their own properties; they are
    ordinary objects, with [Object.prototype] as prototype), [tasks] the
    [Task] instances and [strings] the [string[]] arrays that callers pass
    as [requiredEnv]. *)
Record heap := {
  arrays : gmap loc (list TaskStep);
  objects : gmap loc (gmap string string);
  tasks : gmap loc TaskObj;
  strings : gmap loc (list string);
}.

Definition empty_heap : heap :=
  {| arrays := ∅; objects := ∅; tasks := ∅; strings := ∅ |}.

(** What a computation can throw: [new Error(msg)], or the engine's
    [TypeError] when a reference does not lead to an object of the expected
    kind (this cannot happen for references produced by the model). *)
Inductive exn :=
| Error (msg : string)
| TypeError.

Inductive result (A : Type) :=
| Return (a : A) (σ : heap)
| Throw (e : exn) (σ : heap).
Arguments Return {A} a σ.
Arguments Throw {A} e σ.

(** The store a computation leaves behind, whether it returned or threw. *)
Definition final {A} (r : result A) : heap :=
  match r with
  | Return _ σ => σ
  | Throw _ σ => σ
  end.

Definition M (A : Type) : Type := heap → result A.

Definition ret {A} (a : A) : M A := λ σ, Return a σ.

Definition bind {A B} (c : M A) (k : A → M B) : M B :=
  λ σ, match c σ with
       | Return a σ' => k a σ'
       | Throw e σ' => Throw e σ'
       end.

Definition throw {A} (e : exn) : M A := λ σ, Throw e σ.

Notation "'let*' x ':=' c 'in' k" := (bind c (λ x, k))
  (at level 10, x pattern, c at level 100, k at level 200).
Notation "c ';;' k" := (bind c (λ _, k))
  (at level 100, k at level 200, right associativity).

(** *** Primitive operations on the store *)

Definition get_task (this : loc) : M TaskObj :=
  λ σ, match tasks σ !! this with
       | Some T => Return T σ
       | None => Throw TypeError σ
       end.

Definition with_arrays (σ : heap) (m : gmap loc (list TaskStep)) : heap :=
  {| arrays := m; objects := objects σ; tasks := tasks σ;
     strings := strings σ |}.

Definition with_objects (σ : heap) (m : gmap loc (gmap string string)) : heap :=
  {| arrays := arrays σ; objects := m; tasks := tasks σ;
     strings := strings σ |}.

Definition with_tasks (σ : heap) (m : gmap loc TaskObj) : heap :=
  {| arrays := arrays σ; objects := objects σ; tasks := m;
     strings := strings σ |}.

Definition with_strings (σ : heap) (m : gmap loc (list string)) : heap :=
  {| arrays := arrays σ; objects := objects σ; tasks := tasks σ;
     strings := m |}.

Definition put_task (this : loc) (T : TaskObj) : M unit :=
  λ σ, Return tt (with_tasks σ (<[this := T]> (tasks σ))).

Definition alloc_task (T : TaskObj) : M loc :=
  λ σ, let l := fresh (dom (tasks σ)) in
       Return l (with_tasks σ (<[l := T]> (tasks σ))).

Definition alloc_array (l : list TaskStep) : M loc :=
  λ σ, let a := fresh (dom (arrays σ)) in
       Return a (with_arrays σ (<[a := l]> (arrays σ))).

Definition alloc_object (o : gmap string string) : M loc :=
  λ σ, let a := fresh (dom (objects σ)) in
       Return a (with_objects σ (<[a := o]> (objects σ))).

Definition read_array (a : loc) : M (list TaskStep) :=
  λ σ, match arrays σ !! a with
       | Some l => Return l σ
       | None => Throw TypeError σ
       end.

(** Replace the contents of the array at [a], in place. *)
Definition write_array (a : loc) (l : list TaskStep) : M unit :=
  λ σ, match arrays σ !! a with
       | Some _ => Return tt (with_arrays σ (<[a := l]> (arrays σ)))
       | None => Throw TypeError σ
       end.

(** [a.push(x)] *)
Definition array_push (a : loc) (x : TaskStep) : M unit :=
  let* l := read_array a in write_array a (l ++ [x]).

(** [a.unshift(x)] *)
Definition array_unshift (a : loc) (x : TaskStep) : M unit :=
  let* l := read_array a in write_array a (x :: l).

(** [a.shift()] *)
Definition array_shift (a : loc) : M unit :=
  let* l := read_array a in write_array a (tail l).

(** The own properties of an ordinary object after the assignment
    [o[k] = v] of a string [v].  The name ["__proto__"] is special: unless
    the object has an own property of that name, the assignment reaches the
    accessor that [Object.prototype] has for it, which ignores a string and
    stores nothing.  Every other name, and an own ["__proto__"], is written
    as a property of the object. *)
Definition set_property (m : gmap string string) (k v : string)
    : gmap string string :=
  if decide (k = "__proto__" ∧ m !! k = None) then m else <[k := v]> m.

(** [o[k] = v] on an object used as a string-to-string map. *)
Definition object_set (o : loc) (k v : string) : M unit :=
  λ σ, match objects σ !! o with
       | Some m =>
         Return tt (with_objects σ (<[o := set_property m k v]> (objects σ)))
       | None => Throw TypeError σ
       end.

(** ** [class Task] *)

(** The fields of [T] after [this._locked = true], and after
    [this._description = desc]. *)
Definition locked_fields (T : TaskObj) : TaskObj :=
  {| name := name T; condition := condition T; _steps := _steps T;
     _env := _env T; cwd := cwd T; requiredEnv := requiredEnv T;
     _locked := true; _description := _description T |}.

Definition described_fields (T : TaskObj) (desc : option string) : TaskObj :=
  {| name := name T; condition := condition T; _steps := _steps T;
     _env := _env T; cwd := cwd T; requiredEnv := requiredEnv T;
     _locked := _locked T; _description := desc |}.


Module Task.

(** The message of the error thrown by [assertUnlocked]. *)
Definition locked_message (name : string) : string :=
  "Task " +:+ dquote +:+ name +:+ dquote +:+ " is locked for changes".

(** [private assertUnlocked()] *)
Definition assertUnlocked (this : loc) : M unit :=
  let* T := get_task this in
  if _locked T then throw (Error (locked_message (name T))) else ret tt.

(** [public lock()] *)
Definition lock (this : loc) : M unit :=
  let* T := get_task this in
  put_task this (locked_fields T).

(** [public get description()] *)
Definition description (this : loc) : M (option string) :=
  let* T := get_task this in ret (_description T).

(** [public set description(desc)] *)
Definition set_description (this : loc) (desc : option string) : M unit :=
  let* T := get_task this in
  put_task this (described_fields T desc).

(** [public exec(command, options = {})] *)
Definition exec (this : loc) (command : string) (options : TaskStepOptions) : M unit :=
  assertUnlocked this ;;
  let* T := get_task this in
  array_push (_steps T) (exec_step command options).

(** The loop [while (this._steps.length) { this._steps.shift(); }].  Every
    iteration removes one element, so the number of iterations is the
    length of the array when the loop starts; [pending] is that content and
    serves as the loop test. *)
Fixpoint shift_while (a : loc) (pending : list TaskStep) : M unit :=
  match pending with
  | [] => ret tt
  | _ :: pending' => array_shift a ;; shift_while a pending'
  end.

(** [public reset(command?, options = {})] *)
Definition reset (this : loc) (command : option string) (options : TaskStepOptions) : M unit :=
  assertUnlocked this ;;
  let* T := get_task this in
  let* l := read_array (_steps T) in
  shift_while (_steps T) l ;;
  match truthy command with
  | Some c => exec this c options
  | None => ret tt
  end.

(** [public builtin(name)] *)
Definition builtin (this : loc) (name : string) : M unit :=
  assertUnlocked this ;;
  let* T := get_task this in
  array_push (_steps T) (builtin_step name).

(** [public say(message, options = {})] *)
Definition say (this : loc) (message : string) (options : TaskStepOptions) : M unit :=
  assertUnlocked this ;;
  let* T := get_task this in
  array_push (_steps T) (say_step message options).

(** [public spawn(subtask, options = {})]: [subtask] is a reference to a
    [Task]; the step receives [subtask.name]. *)
Definition spawn (this : loc) (subtask : loc) (options : TaskStepOptions) : M unit :=
  assertUnlocked this ;;
  let* T := get_task this in
  let* Sub := get_task subtask in
  array_push (_steps T) (spawn_step (name Sub) options).

(** [public prependExec(shell, options = {})] *)
Definition prependExec (this : loc) (shell : string) (options : TaskStepOptions) : M unit :=
  assertUnlocked this ;;
  let* T := get_task this in
  array_unshift (_steps T) (exec_step shell options).

(** [public prepend(shell, options = {})] (deprecated) *)
Definition prepend (this : loc) (shell : string) (options : TaskStepOptions) : M unit :=
  assertUnlocked this ;;
  prependExec this shell options.

(** [public prependSpawn(subtask, options = {})] *)
Definition prependSpawn (this : loc) (subtask : loc) (options : TaskStepOptions) : M unit :=
  assertUnlocked this ;;
  let* T := get_task this in
  let* Sub := get_task subtask in
  array_unshift (_steps T) (spawn_step (name Sub) options).

(** [public prependSay(message, options = {})] *)
Definition prependSay (this : loc) (message : string) (options : TaskStepOptions) : M unit :=
  assertUnlocked this ;;
  let* T := get_task this in
  array_unshift (_steps T) (say_step message options).

(** [public env(name, value)] *)
Definition env (this : loc) (name value : string) : M unit :=
  assertUnlocked this ;;
  let* T := get_task this in
  object_set (_env T) name value.

(** [public get steps()]: [[...this._steps]] allocates a new array. *)
Definition steps (this : loc) : M loc :=
  let* T := get_task this in
  let* l := read_array (_steps T) in
  alloc_array l.

(** [public _renderSpec()] *)
Definition _renderSpec (this : loc) : M TaskSpec :=
  let* T := get_task this in
  let* d := description this in
  ret {| spec_name := name T; spec_description := d; spec_env := _env T;
         spec_requiredEnv := requiredEnv T; spec_steps := _steps T;
         spec_condition := condition T; spec_cwd := cwd T |}.

(** [constructor(name, props = {})].  [props.env ?? {}] keeps the caller's
    object when there is one and allocates an empty object otherwise. *)
Definition constructor (name : string) (props : TaskOptions) : M loc :=
  let* e := match props_env props with
            | Some e => ret e
            | None => alloc_object ∅
            end in
  let* s := alloc_array [] in
  let* this := alloc_task
    {| name := name; condition := props_condition props; _steps := s;
       _env := e; cwd := props_cwd props;
       requiredEnv := props_requiredEnv props; _locked := false;
       _description := props_description props |} in
  match truthy (props_exec props) with
  | Some c => exec this c no_options ;; ret this
  | None => ret this
  end.

End Task.

(** *** Reading a task out of a store *)

(** The step sequence of the task at [t], [None] for a dangling reference. *)
Definition steps_of (σ : heap) (t : loc) : option (list TaskStep) :=
  T ← tasks σ !! t; arrays σ !! _steps T.

(** The environment mapping of the task at [t]. *)
Definition env_of (σ : heap) (t : loc) : option (gmap string string) :=
  T ← tasks σ !! t; objects σ !! _env T.

(** [t] refers to a task whose fields are [T], whose step array holds [l]
    and whose environment object holds [e]. *)
Definition task_at (σ : heap) (t : loc) (T : TaskObj)
    (l : list TaskStep) (e : gmap string string) : Prop :=
  tasks σ !! t = Some T
  ∧ arrays σ !! _steps T = Some l
  ∧ objects σ !! _env T = Some e.

(** The contents behind the references of a rendered spec, read in [σ]. *)
Definition spec_steps_in (σ : heap) (s : TaskSpec) : option (list TaskStep) :=
  arrays σ !! spec_steps s.

Definition spec_env_in (σ : heap) (s : TaskSpec) : option (gmap string string) :=
  objects σ !! spec_env s.

(** Client code that holds a reference to an array can change it in place
    ([push], [pop], [reverse], [sort], [splice], ...): [f] is the effect on
    the contents. *)
Definition mutate_array (a : loc) (f : list TaskStep → list TaskStep) : M unit :=
  let* l := read_array a in write_array a (f l).

(** The same for an array of names ([push], [pop], [splice], ...). *)
Definition mutate_strings (r : loc) (f : list string → list string) : M unit :=
  λ σ, match strings σ !! r with
       | Some l => Return tt (with_strings σ (<[r := f l]> (strings σ)))
       | None => Throw TypeError σ
       end.

(** The names behind the [requiredEnv] of a rendered spec, read in [σ];
    [None] when the spec has no [requiredEnv]. *)
Definition spec_requiredEnv_in (σ : heap) (s : TaskSpec) : option (list string) :=
  r ← spec_requiredEnv s; strings σ !! r.

(** ** Programs over the public interface of [Task] *)

(** One call of a member of [Task] on a receiver. *)
Inductive call :=
| Lock
| GetDescription
| SetDescription (desc : option string)
| Reset (command : option string) (options : TaskStepOptions)
| Exec (command : string) (options : TaskStepOptions)
| Builtin (name : string)
| Say (message : string) (options : TaskStepOptions)
| Prepend (shell : string) (options : TaskStepOptions)
| Spawn (subtask : loc) (options : TaskStepOptions)
| PrependExec (shell : string) (options : TaskStepOptions)
| PrependSpawn (subtask : loc) (options : TaskStepOptions)
| PrependSay (message : string) (options : TaskStepOptions)
| Env (name value : string)
| Steps
| RenderSpec.

(** Run the call, dropping the value it returns. *)
Definition invoke (this : loc) (c : call) : M unit :=
  match c with
  | Lock => Task.lock this
  | GetDescription => Task.description this ;; ret tt
  | SetDescription desc => Task.set_description this desc
  | Reset command options => Task.reset this command options
  | Exec command options => Task.exec this command options
  | Builtin name => Task.builtin this name
  | Say message options => Task.say this message options
  | Prepend shell options => Task.prepend this shell options
  | Spawn subtask options => Task.spawn this subtask options
  | PrependExec shell options => Task.prependExec this shell options
  | PrependSpawn subtask options => Task.prependSpawn this subtask options
  | PrependSay message options => Task.prependSay this message options
  | Env name value => Task.env this name value
  | Steps => Task.steps this ;; ret tt
  | RenderSpec => Task._renderSpec this ;; ret tt
  end.

(** The members the lock is documented to guard. *)
Definition mutator (c : call) : bool :=
  match c with
  | Reset _ _ | Exec _ _ | Builtin _ | Say _ _ | Prepend _ _ | Spawn _ _
  | PrependExec _ _ | PrependSpawn _ _ | PrependSay _ _ | Env _ _ => true
  | _ => false
  end.

(** A statement of client code: construct a task, call a member, change an
    array it holds a reference to (one returned by [steps] or found in a
    rendered spec), write a property of an environment object it holds
    (one passed as [props.env] or found in a rendered spec), or change an
    array of names it holds (one passed as [props.requiredEnv] or found in a
    rendered spec). *)
Inductive action :=
| New (name : string) (props : TaskOptions)
| Call (this : loc) (c : call)
| ArrayWrite (a : loc) (f : list TaskStep → list TaskStep)
| ObjectWrite (o : loc) (k v : string)
| StringsWrite (r : loc) (f : list string → list string).

(** A caught exception leaves the store as it was when it was thrown. *)
Definition perform (a : action) (σ : heap) : heap :=
  match a with
  | New name props => final (Task.constructor name props σ)
  | Call this c => final (invoke this c σ)
  | ArrayWrite a f => final (mutate_array a f σ)
  | ObjectWrite o k v => final (object_set o k v σ)
  | StringsWrite r f => final (mutate_strings r f σ)
  end.

Definition run (prog : list action) (σ : heap) : heap :=
  foldl (λ σ a, perform a σ) σ prog.

(** ** The task inspector of the command line ([src/cli/tasks.ts]) *)

(** A task as the runtime reads it from [.projen/tasks.json]: plain data.
    [env] lists the entries in the order [Object.entries] enumerates them;
    [env] and [steps] may be missing from the document. *)
Record TaskSpecData := {
  data_name : string;
  data_description : option string;
  data_env : option (list (string * string));
  data_requiredEnv : option (list string);
  data_steps : option (list TaskStep);
  data_condition : option string;
  data_cwd : option string;
}.

(** What the command line does to the outside world. *)
Inductive event :=
| ConsoleLog (line : string)
| TryFindTask (name : string)
| RunTask (name : string).

(** How a run of the inspector ends: it returns, it throws
    [new Error(msg)], or the recursion is deeper than the fuel allows.  A
    run that is out of fuel whatever the fuel is a recursion without end: in
    the program it ends when the engine gives up with a [RangeError]. *)
Inductive outcome :=
| Finished
| Threw (msg : string)
| OutOfFuel.

(** [" ".repeat(n)] *)
Fixpoint spaces (n : nat) : string :=
  match n with
  | 0 => EmptyString
  | S n' => " " +:+ spaces n'
  end.

Section Cli.

(** The manifest held by the runtime, [runtime.manifest.tasks]. *)
Variable manifest : gmap string TaskSpecData.

(** [chalk.underline] and [chalk.bold] decorate a string for the terminal. *)
Variable underline bold : string → string.

(** Modelled from the spec: [TaskRuntime.tryFindTask] lives in
    [task-runtime.ts], which is not part of the sources at hand; the
    runtime is to "look up [the] manifest entry" by name, working "purely
    against the manifest". *)
Definition tryFindTask (name : string) : option TaskSpecData :=
  manifest !! name.

Definition unresolved_message (name : string) : string :=
  name +:+ ": unable to resolve subtask with name " +:+ dquote +:+ name +:+ dquote.

(** [writeln] of [inspectTask]: [console.log(" ".repeat(indent) + s)]. *)
Definition writeln (indent : nat) (s : string) : event :=
  ConsoleLog (spaces indent +:+ s).

(** The lines printed before the steps. *)
Definition header (indent : nat) (task : TaskSpecData) : list event :=
  match truthy (data_description task) with
  | Some d => [writeln indent (underline "description" +:+ ": " +:+ d)]
  | None => []
  end
  ++ map (λ kv, writeln indent (underline "env" +:+ ": " +:+ kv.1 +:+ "=" +:+ kv.2))
         (default [] (data_env task)).

(** The loop [for (const step of task.steps ?? [])]; [self] is the
    recursive call [inspectTask].  An exception in a subtask ends the
    loop. *)
Fixpoint inspect_steps (self : string → nat → list event * outcome)
    (indent : nat) (steps : list TaskStep) : list event * outcome :=
  match steps with
  | [] => ([], Finished)
  | step :: rest =>
    match truthy (step_spawn step) with
    | Some sub =>
      let '(tr, out) := self sub (indent + 2) in
      match out with
      | Finished =>
        let '(tr', out') := inspect_steps self indent rest in
        (writeln indent ("- " +:+ bold sub) :: tr ++ tr', out')
      | _ => (writeln indent ("- " +:+ bold sub) :: tr, out)
      end
    | None =>
      let line :=
        match truthy (step_exec step) with
        | Some c => [writeln indent ("- exec: " +:+ c)]
        | None =>
          match truthy (step_builtin step) with
          | Some b => [writeln indent ("- builtin: " +:+ b)]
          | None => []
          end
        end in
      let '(tr', out') := inspect_steps self indent rest in
      (line ++ tr', out')
    end
  end.

(** [function inspectTask(name, indent = 0)].  [fuel] bounds the depth of
    the recursion. *)
Fixpoint inspectTask (fuel : nat) (name : string) (indent : nat)
    : list event * outcome :=
  match fuel with
  | 0 => ([], OutOfFuel)
  | S fuel' =>
    match tryFindTask name with
    | None => ([TryFindTask name], Threw (unresolved_message name))
    | Some task =>
      let '(tr, out) :=
        inspect_steps (inspectTask fuel') indent (default [] (data_steps task)) in
      (TryFindTask name :: header indent task ++ tr, out)
    end
  end.

(** The handler of [taskCommandHandler(taskName)]: [--inspect] selects the
    inspector, otherwise the runtime runs the task (what [runTask] then
    does is outside this development; the call is recorded). *)
Definition taskCommandHandler (fuel : nat) (taskName : string) (inspect : bool)
    : list event * outcome :=
  if inspect then inspectTask fuel taskName 0
  else ([RunTask taskName], Finished).

(** The spawn graph: [a] has a spawn step that names [b]. *)
Definition spawns (a b : string) : Prop :=
  ∃ task step, tryFindTask a = Some task
               ∧ step ∈ default [] (data_steps task)
               ∧ truthy (step_spawn step) = Some b.

Definition acyclic : Prop := ∀ a, ¬ tc spawns a a.

(** The inspection with fuel for every acyclic manifest. *)
Definition inspect (name : string) (indent : nat) : list event * outcome :=
  inspectTask (S (size manifest)) name indent.

Definition is_run (e : event) : bool :=
  match e with
  | RunTask _ => true
  | _ => false
  end.

End Cli.


(** ** How the task instances of a store change over time *)

Section Evolution.

(** [R t T T']: the fields of the task at [t] went from [T] to [T']. *)
Variable R : loc → TaskObj → TaskObj → Prop.

(** Every task of [σ] is still there in [σ'], changed as [R] allows, and
    so is every array and every object. *)
Definition evolves (σ σ' : heap) : Prop :=
  (∀ t T, tasks σ !! t = Some T → ∃ T', tasks σ' !! t = Some T' ∧ R t T T')
  ∧ dom (arrays σ) ⊆ dom (arrays σ')
  ∧ dom (objects σ) ⊆ dom (objects σ').

Definition evolving {A} (c : M A) : Prop :=
  ∀ σ, evolves σ (final (c σ)).

End Evolution.

(** The [readonly] fields keep their values and a lock is never released. *)
Definition same_identity (T T' : TaskObj) : Prop :=
  name T' = name T ∧ condition T' = condition T ∧ _steps T' = _steps T
  ∧ _env T' = _env T ∧ cwd T' = cwd T ∧ requiredEnv T' = requiredEnv T
  ∧ (_locked T = true → _locked T' = true).

(** ** Sample stores *)

(** The fields of [new Task("build")] in an empty store. *)
Definition build_fields : TaskObj :=
  {| name := "build"; condition := None; _steps := 1%positive;
     _env := 1%positive; cwd := None; requiredEnv := None;
     _locked := false; _description := None |}.

(** The store after [new Task("build")]. *)
Definition build_heap : heap :=
  {| arrays := {[ 1%positive := [] ]};
     objects := {[ 1%positive := ∅ ]};
     tasks := {[ 1%positive := build_fields ]};
     strings := ∅ |}.

(** The store after [new Task("compile", { exec: "tsc" })]. *)
Definition compile_fields : TaskObj :=
  {| name := "compile"; condition := None; _steps := 1%positive;
     _env := 1%positive; cwd := None; requiredEnv := None;
     _locked := false; _description := None |}.

Definition compile_heap : heap :=
  {| arrays := {[ 1%positive := [exec_step "tsc" no_options] ]};
     objects := {[ 1%positive := ∅ ]};
     tasks := {[ 1%positive := compile_fields ]};
     strings := ∅ |}.

(** ** The step a call adds *)

(** The object literal that an appending member pushes. *)
Definition appended (σ : heap) (c : call) : option TaskStep :=
  match c with
  | Exec command options => Some (exec_step command options)
  | Builtin name => Some (builtin_step name)
  | Say message options => Some (say_step message options)
  | Spawn subtask options =>
    Sub ← tasks σ !! subtask; Some (spawn_step (name Sub) options)
  | _ => None
  end.

(** The object literal that a prepending member unshifts. *)
Definition prepended (σ : heap) (c : call) : option TaskStep :=
  match c with
  | Prepend shell options => Some (exec_step shell options)
  | PrependExec shell options => Some (exec_step shell options)
  | PrependSay message options => Some (say_step message options)
  | PrependSpawn subtask options =>
    Sub ← tasks σ !! subtask; Some (spawn_step (name Sub) options)
  | _ => None
  end.

(** The description of the task at [t] is left alone. *)
Definition keeps_description (t : loc) : loc → TaskObj → TaskObj → Prop :=
  λ t' T T', t' = t → _description T' = _description T.

(** The properties [{ description: "Build" }]. *)
Definition described_props : TaskOptions :=
  {| props_description := Some "Build"; props_env := None;
     props_condition := None; props_cwd := None; props_requiredEnv := None;
     props_exec := None |}.

(** A manifest with a task "build" that runs a command and spawns "sub". *)
Definition data_task (name : string) (steps : list TaskStep) : TaskSpecData :=
  {| data_name := name; data_description := None; data_env := None;
     data_requiredEnv := None; data_steps := Some steps;
     data_condition := None; data_cwd := None |}.

Definition sample_manifest : gmap string TaskSpecData :=
  <["build" := data_task "build" [exec_step "echo step1" no_options;
                                   spawn_step "sub" no_options]]>
    (<["sub" := data_task "sub" [exec_step "echo step2" no_options]]> ∅).

(** A manifest with a cycle: "loop" spawns itself. *)
Definition looping_manifest : gmap string TaskSpecData :=
  {[ "loop" := data_task "loop" [spawn_step "loop" no_options] ]}.

(** ** How a call ends *)

Definition throws {A} (r : result A) : bool :=
  match r with
  | Throw _ _ => true
  | Return _ _ => false
  end.

(** The [Task] a call receives as an argument. *)
Definition subtask_of (c : call) : option loc :=
  match c with
  | Spawn subtask _ | PrependSpawn subtask _ => Some subtask
  | _ => None
  end.

(** A computation that only reads the store. *)
Definition reader {A} (c : M A) : Prop := ∀ σ, final (c σ) = σ.

(** A computation that leaves the store alone when it throws. *)
Definition throw_safe {A} (c : M A) : Prop :=
  ∀ σ e σ', c σ = Throw e σ' → σ' = σ.

(** What a call on the task at [t], with fields [T], can do to the store:
    nothing, rewrite the step array of [T], allocate a new array, rewrite
    the environment object of [T], or rewrite fields of the instance that
    are not [readonly]. *)
Inductive effect (σ : heap) (t : loc) (T : TaskObj) : heap → Prop :=
| effect_none : effect σ t T σ
| effect_steps (l : list TaskStep) :
    is_Some (arrays σ !! _steps T) →
    effect σ t T (with_arrays σ (<[_steps T := l]> (arrays σ)))
| effect_copy (l : list TaskStep) :
    effect σ t T (with_arrays σ (<[fresh (dom (arrays σ)) := l]> (arrays σ)))
| effect_env (m : gmap string string) :
    is_Some (objects σ !! _env T) →
    effect σ t T (with_objects σ (<[_env T := m]> (objects σ)))
| effect_fields (T' : TaskObj) :
    same_identity T T' →
    effect σ t T (with_tasks σ (<[t := T']> (tasks σ))).

(** ** The store after the constructor *)

(** The steps a new task starts with: [if (props.exec) this.exec(props.exec)]. *)
Definition initial_steps (props : TaskOptions) : list TaskStep :=
  match truthy (props_exec props) with
  | Some c => [exec_step c no_options]
  | None => []
  end.

(** The fields of the instance that [new Task(name, props)] makes in [σ]. *)
Definition new_fields (name : string) (props : TaskOptions) (σ : heap) : TaskObj :=
  {| name := name; condition := props_condition props;
     _steps := fresh (dom (arrays σ));
     _env := match props_env props with
             | Some e => e
             | None => fresh (dom (objects σ))
             end;
     cwd := props_cwd props; requiredEnv := props_requiredEnv props;
     _locked := false; _description := props_description props |}.


(** ** Manifests for the inspector *)

(** Every task named by a spawn step is in the manifest. *)
Definition closed (manifest : gmap string TaskSpecData) : Prop :=
  ∀ a b, spawns manifest a b → is_Some (manifest !! b).

(** A step the inspector has no line for: no [spawn], [exec] or [builtin]
    that passes the test [if (step.x)]. *)
Definition silent (step : TaskStep) : Prop :=
  truthy (step_spawn step) = None
  ∧ truthy (step_exec step) = None
  ∧ truthy (step_builtin step) = None.

(** The task [task] with [step] put into its steps after the first [i]. *)
Definition with_step_at (i : nat) (step : TaskStep) (task : TaskSpecData)
    : TaskSpecData :=
  {| data_name := data_name task; data_description := data_description task;
     data_env := data_env task; data_requiredEnv := data_requiredEnv task;
     data_steps := Some (take i (default [] (data_steps task)) ++ step
                         :: drop i (default [] (data_steps task)));
     data_condition := data_condition task; data_cwd := data_cwd task |}.

(** A manifest whose task "build" spawns a task that is not there. *)
Definition broken_manifest : gmap string TaskSpecData :=
  {[ "build" := data_task "build" [exec_step "echo step1" no_options;
                                   spawn_step "deploy" no_options;
                                   exec_step "echo step3" no_options] ]}.

(** ** A caller: [Publisher.publishToGit] ([src/release/publisher.ts]) *)

(** [GitPublishOptions], with the three files of [VersionArtifactOptions]. *)
Record GitPublishOptions := {
  versionFile : string;
  releaseTagFile : string;
  changelogFile : string;
  projectChangelogFile : option string;
  gitBranch : option string;
  gitPushCommand : option string;
}.

(** [Publisher.PUBLISH_GIT_TASK_NAME] *)
Definition PUBLISH_GIT_TASK_NAME : string := "publish:git".

Definition publish_git_description : string :=
  "Prepends the release changelog onto the project changelog, creates a release commit, and tags the release".

(** [options.gitBranch ?? "main"] *)
Definition publish_branch (options : GitPublishOptions) : string :=
  default "main" (gitBranch options).

(** The name of the task: the branch is a suffix unless it is "main" or
    "master". *)
Definition publish_task_name (options : GitPublishOptions) : string :=
  if bool_decide (publish_branch options = "main")
     || bool_decide (publish_branch options = "master")
  then PUBLISH_GIT_TASK_NAME
  else PUBLISH_GIT_TASK_NAME +:+ ":" +:+ publish_branch options.

(** The object literal passed as [env]. *)
Definition publish_env (options : GitPublishOptions) : gmap string string :=
  <["CHANGELOG" := changelogFile options]>
    (<["RELEASE_TAG_FILE" := releaseTagFile options]>
       (<["PROJECT_CHANGELOG_FILE" := default EmptyString (projectChangelogFile options)]>
          (<["VERSION_FILE" := versionFile options]> ∅))).

Section Publisher.

(** [this.project.addTask], which is not part of the sources at hand. *)
Variable addTask : string → TaskOptions → M loc.

(** [public publishToGit(options)] *)
Definition publishToGit (options : GitPublishOptions) : M loc :=
  let* env := alloc_object (publish_env options) in
  let* publishTask :=
    addTask (publish_task_name options)
      {| props_description := Some publish_git_description;
         props_env := Some env; props_condition := None; props_cwd := None;
         props_requiredEnv := None; props_exec := None |} in
  match truthy (projectChangelogFile options) with
  | Some _ => Task.builtin publishTask "release/update-changelog"
  | None => ret tt
  end ;;
  Task.builtin publishTask "release/tag-version" ;;
  match gitPushCommand options with
  | Some EmptyString => ret tt
  | _ =>
    Task.exec publishTask
      match truthy (gitPushCommand options) with
      | Some command => command
      | None => "git push --follow-tags origin " +:+ publish_branch options
      end
      no_options
  end ;;
  ret publishTask.

End Publisher.

(** Options with a project changelog, the branch "v2" and pushing disabled. *)
Definition sample_publish_options : GitPublishOptions :=
  {| versionFile := "version.txt"; releaseTagFile := "releasetag.txt";
     changelogFile := "changelog.md";
     projectChangelogFile := Some "CHANGELOG.md";
     gitBranch := Some "v2"; gitPushCommand := Some EmptyString |}.

(** A store in which a caller holds the array [["NPM_TOKEN"]], and the
    properties of a task that is given that array as [requiredEnv]. *)
Definition names_heap : heap :=
  {| arrays := ∅; objects := ∅; tasks := ∅;
     strings := {[ 1%positive := ["NPM_TOKEN"] ]} |}.

Definition release_props : TaskOptions :=
  {| props_description := Some "Release"; props_env := None;
     props_condition := Some "test -d dist"; props_cwd := Some "dist";
     props_requiredEnv := Some 1%positive; props_exec := Some "npx publib" |}.

(** ** The inspection as a depth-first traversal *)

Section Traversal.

Variable manifest : gmap string TaskSpecData.
Variable underline bold : string → string.

(** What a depth-first, read-only traversal of the spawn graph shows, told
    without the program: [shown name indent tr out] says that the traversal
    of [name] at [indent] makes the events [tr] and ends as [out].  A task
    that is not in the manifest is looked up and the traversal stops with
    the error.  A task of the manifest is looked up, its header is printed
    and its steps are gone through in order ([shown_steps]).  A spawn step
    is its line, then the whole traversal of the subtask two columns
    further in, and only then the steps after it; an error in the subtask
    ends everything.  An exec or builtin step is its line; any other step
    shows nothing. *)
Inductive shown : string → nat → list event → outcome → Prop :=
| shown_missing name indent :
    tryFindTask manifest name = None →
    shown name indent [TryFindTask name] (Threw (unresolved_message name))
| shown_task name indent task tr out :
    tryFindTask manifest name = Some task →
    shown_steps indent (default [] (data_steps task)) tr out →
    shown name indent (TryFindTask name :: header underline indent task ++ tr) out
with shown_steps : nat → list TaskStep → list event → outcome → Prop :=
| shown_end indent :
    shown_steps indent [] [] Finished
| shown_spawn indent step rest sub tr_sub tr out :
    truthy (step_spawn step) = Some sub →
    shown sub (indent + 2) tr_sub Finished →
    shown_steps indent rest tr out →
    shown_steps indent (step :: rest)
      (writeln indent ("- " +:+ bold sub) :: tr_sub ++ tr) out
| shown_spawn_threw indent step rest sub tr_sub msg :
    truthy (step_spawn step) = Some sub →
    shown sub (indent + 2) tr_sub (Threw msg) →
    shown_steps indent (step :: rest)
      (writeln indent ("- " +:+ bold sub) :: tr_sub) (Threw msg)
| shown_exec indent step rest command tr out :
    truthy (step_spawn step) = None →
    truthy (step_exec step) = Some command →
    shown_steps indent rest tr out →
    shown_steps indent (step :: rest)
      (writeln indent ("- exec: " +:+ command) :: tr) out
| shown_builtin indent step rest name tr out :
    truthy (step_spawn step) = None →
    truthy (step_exec step) = None →
    truthy (step_builtin step) = Some name →
    shown_steps indent rest tr out →
    shown_steps indent (step :: rest)
      (writeln indent ("- builtin: " +:+ name) :: tr) out
| shown_nothing indent step rest tr out :
    truthy (step_spawn step) = None →
    truthy (step_exec step) = None →
    truthy (step_builtin step) = None →
    shown_steps indent rest tr out →
    shown_steps indent (step :: rest) tr out.

(** The text of the line of a step, if it has one. *)
Definition step_text (step : TaskStep) : list string :=
  match truthy (step_spawn step) with
  | Some sub => ["- " +:+ bold sub]
  | None =>
    match truthy (step_exec step) with
    | Some command => ["- exec: " +:+ command]
    | None =>
      match truthy (step_builtin step) with
      | Some name => ["- builtin: " +:+ name]
      | None => []
      end
    end
  end.

(** The texts the inspector has for a task: the description, the
    environment entries and the steps. *)
Definition own_texts (task : TaskSpecData) : list string :=
  match truthy (data_description task) with
  | Some d => [underline "description" +:+ ": " +:+ d]
  | None => []
  end
  ++ map (λ kv, underline "env" +:+ ": " +:+ kv.1 +:+ "=" +:+ kv.2)
         (default [] (data_env task))
  ++ flat_map step_text (default [] (data_steps task)).

End Traversal.

Scheme shown_mut := Minimality for shown Sort Prop
  with shown_steps_mut := Minimality for shown_steps Sort Prop.
(** * Properties *)

(** ** How the members of [Task] act on the store *)

Section TaskMembers.

Context (σ : heap) (t : loc) (T : TaskObj).
Hypothesis Ht : tasks σ !! t = Some T.

Lemma assertUnlocked_unlocked :
  _locked T = false → Task.assertUnlocked t σ = Return tt σ.
Proof.
  intros Hl. unfold Task.assertUnlocked, bind, get_task.
  rewrite Ht. simpl. by rewrite Hl.
Qed.

Lemma assertUnlocked_locked :
  _locked T = true →
  Task.assertUnlocked t σ = Throw (Error (Task.locked_message (name T))) σ.
Proof.
  intros Hl. unfold Task.assertUnlocked, bind, get_task.
  rewrite Ht. simpl. by rewrite Hl.
Qed.

Lemma array_push_at a l x :
  arrays σ !! a = Some l →
  array_push a x σ = Return tt (with_arrays σ (<[a := l ++ [x]]> (arrays σ))).
Proof.
  intros Ha. unfold array_push, bind, read_array, write_array.
  rewrite Ha. simpl. by rewrite Ha.
Qed.

Lemma array_unshift_at a l x :
  arrays σ !! a = Some l →
  array_unshift a x σ = Return tt (with_arrays σ (<[a := x :: l]> (arrays σ))).
Proof.
  intros Ha. unfold array_unshift, bind, read_array, write_array.
  rewrite Ha. simpl. by rewrite Ha.
Qed.

(** A guarded member that appends: the guard passes, then the push. *)
Lemma append_member (step : TaskStep) (l : list TaskStep) :
  _locked T = false →
  arrays σ !! _steps T = Some l →
  (Task.assertUnlocked t ;; let* T' := get_task t in array_push (_steps T') step) σ
  = Return tt (with_arrays σ (<[_steps T := l ++ [step]]> (arrays σ))).
Proof.
  intros Hl Ha. unfold bind at 1. rewrite assertUnlocked_unlocked by done.
  unfold bind, get_task. rewrite Ht. simpl. by apply array_push_at.
Qed.

Lemma prepend_member (step : TaskStep) (l : list TaskStep) :
  _locked T = false →
  arrays σ !! _steps T = Some l →
  (Task.assertUnlocked t ;; let* T' := get_task t in array_unshift (_steps T') step) σ
  = Return tt (with_arrays σ (<[_steps T := step :: l]> (arrays σ))).
Proof.
  intros Hl Ha. unfold bind at 1. rewrite assertUnlocked_unlocked by done.
  unfold bind, get_task. rewrite Ht. simpl. by apply array_unshift_at.
Qed.

(** A guarded member on a locked task: the guard throws, nothing else
    happens. *)
Lemma guarded_locked {A} (k : M A) :
  _locked T = true →
  (Task.assertUnlocked t ;; k) σ
  = Throw (Error (Task.locked_message (name T))) σ.
Proof.
  intros Hl. unfold bind. by rewrite assertUnlocked_locked.
Qed.

End TaskMembers.

Lemma steps_of_at σ t T l e : task_at σ t T l e → steps_of σ t = Some l.
Proof. intros (Ht & Ha & _). unfold steps_of. by rewrite Ht. Qed.

Lemma env_of_at σ t T l e : task_at σ t T l e → env_of σ t = Some e.
Proof. intros (Ht & _ & He). unfold env_of. by rewrite Ht. Qed.

(** ** What no member of [Task] ever changes *)

Create HintDb evolving.

Section EvolutionLemmas.

Context (R : loc → TaskObj → TaskObj → Prop).
Hypothesis R_refl : ∀ t T, R t T T.
Hypothesis R_trans : ∀ t T1 T2 T3, R t T1 T2 → R t T2 T3 → R t T1 T3.

Lemma evolves_refl σ : evolves R σ σ.
Proof. split; [eauto|done]. Qed.

Lemma evolves_trans σ1 σ2 σ3 :
  evolves R σ1 σ2 → evolves R σ2 σ3 → evolves R σ1 σ3.
Proof.
  intros (H12 & Ha12 & Ho12) (H23 & Ha23 & Ho23).
  split; [|split; etrans; done].
  intros t T Ht.
  destruct (H12 t T Ht) as (T2 & Ht2 & HR2).
  destruct (H23 t T2 Ht2) as (T3 & Ht3 & HR3). eauto.
Qed.

(** A computation that leaves the task instances alone and frees
    nothing. *)
Lemma evolving_same_tasks {A} (c : M A) :
  (∀ σ, tasks (final (c σ)) = tasks σ
        ∧ dom (arrays σ) ⊆ dom (arrays (final (c σ)))
        ∧ dom (objects σ) ⊆ dom (objects (final (c σ)))) →
  evolving R c.
Proof.
  intros H σ. destruct (H σ) as (Ht & Ha & Ho).
  split; [|done]. intros t T Hlook. rewrite Ht. eauto.
Qed.

Lemma evolving_ret {A} (a : A) : evolving R (ret a).
Proof. by apply evolving_same_tasks. Qed.

Lemma evolving_throw {A} e : evolving R (@throw A e).
Proof. by apply evolving_same_tasks. Qed.

Lemma evolving_bind {A B} (c : M A) (k : A → M B) :
  evolving R c → (∀ a, evolving R (k a)) → evolving R (bind c k).
Proof.
  intros Hc Hk σ. unfold bind. specialize (Hc σ).
  destruct (c σ) as [a σ'|e σ']; simpl in *; [|done].
  eapply evolves_trans; [done | apply Hk].
Qed.

Lemma evolving_get_task this : evolving R (get_task this).
Proof.
  apply evolving_same_tasks. intros σ. unfold get_task.
  by destruct (tasks σ !! this).
Qed.

Lemma evolving_read_array a : evolving R (read_array a).
Proof.
  apply evolving_same_tasks. intros σ. unfold read_array.
  by destruct (arrays σ !! a).
Qed.

Lemma evolving_write_array a l : evolving R (write_array a l).
Proof.
  apply evolving_same_tasks. intros σ. unfold write_array.
  destruct (arrays σ !! a); [|done]. simpl.
  split; [done|]. split; [apply dom_insert_subseteq|done].
Qed.

Lemma evolving_object_set o k v : evolving R (object_set o k v).
Proof.
  apply evolving_same_tasks. intros σ. unfold object_set.
  destruct (objects σ !! o); [|done]. simpl.
  split; [done|]. split; [done|apply dom_insert_subseteq].
Qed.

Lemma evolving_alloc_array l : evolving R (alloc_array l).
Proof.
  apply evolving_same_tasks. intros σ. simpl.
  split; [done|]. split; [apply dom_insert_subseteq|done].
Qed.

Lemma evolving_alloc_object o : evolving R (alloc_object o).
Proof.
  apply evolving_same_tasks. intros σ. simpl.
  split; [done|]. split; [done|apply dom_insert_subseteq].
Qed.

(** A new instance takes a reference that no existing task has. *)
Lemma evolving_alloc_task T : evolving R (alloc_task T).
Proof.
  intros σ. split; [|done]. intros t T' Ht. simpl. exists T'. split; [|done].
  rewrite lookup_insert_ne; [done|].
  intros <-. apply (is_fresh (dom (tasks σ))).
  apply elem_of_dom. eauto.
Qed.

Hint Resolve evolving_ret evolving_throw evolving_bind evolving_get_task
  evolving_read_array evolving_write_array evolving_object_set
  evolving_alloc_array evolving_alloc_object evolving_alloc_task : evolving.

Lemma evolving_array_push a x : evolving R (array_push a x).
Proof. unfold array_push. auto with evolving. Qed.

Lemma evolving_array_unshift a x : evolving R (array_unshift a x).
Proof. unfold array_unshift. auto with evolving. Qed.

Lemma evolving_array_shift a : evolving R (array_shift a).
Proof. unfold array_shift. auto with evolving. Qed.

Lemma evolving_mutate_array a f : evolving R (mutate_array a f).
Proof. unfold mutate_array. auto with evolving. Qed.

Lemma evolving_mutate_strings r f : evolving R (mutate_strings r f).
Proof.
  apply evolving_same_tasks. intros σ. unfold mutate_strings.
  by destruct (strings σ !! r).
Qed.

Hint Resolve evolving_array_push evolving_array_unshift
  evolving_array_shift : evolving.

Lemma evolving_shift_while a pending : evolving R (Task.shift_while a pending).
Proof. induction pending; simpl; auto with evolving. Qed.

Lemma evolving_assertUnlocked this : evolving R (Task.assertUnlocked this).
Proof.
  unfold Task.assertUnlocked. apply evolving_bind; auto with evolving.
  intros T. destruct (_locked T); auto with evolving.
Qed.

Hint Resolve evolving_shift_while evolving_assertUnlocked : evolving.

Lemma evolving_exec this c o : evolving R (Task.exec this c o).
Proof. unfold Task.exec. auto with evolving. Qed.

Hint Resolve evolving_exec : evolving.

Lemma evolving_reset this c o : evolving R (Task.reset this c o).
Proof.
  unfold Task.reset. do 4 (apply evolving_bind; auto with evolving; intros ?).
  destruct (truthy c); auto with evolving.
Qed.

Lemma evolving_prependExec this c o : evolving R (Task.prependExec this c o).
Proof. unfold Task.prependExec. auto with evolving. Qed.

Hint Resolve evolving_prependExec : evolving.

Lemma evolving_steps this : evolving R (Task.steps this).
Proof. unfold Task.steps. auto with evolving. Qed.

Lemma evolving_description this : evolving R (Task.description this).
Proof. unfold Task.description. auto with evolving. Qed.

Hint Resolve evolving_description : evolving.

Lemma evolving_renderSpec this : evolving R (Task._renderSpec this).
Proof. unfold Task._renderSpec. auto with evolving. Qed.

Lemma evolving_constructor n props : evolving R (Task.constructor n props).
Proof.
  unfold Task.constructor.
  apply evolving_bind; [destruct (props_env props); auto with evolving|].
  intros e. do 2 (apply evolving_bind; auto with evolving; intros ?).
  destruct (truthy (props_exec props)); auto with evolving.
Qed.

(** The two members that write a field of the instance. *)
Lemma evolving_put this (f : TaskObj → TaskObj) :
  (∀ T, R this T (f T)) →
  evolving R (let* T := get_task this in put_task this (f T)).
Proof.
  intros Hf σ. unfold bind, get_task.
  destruct (tasks σ !! this) as [T0|] eqn:Hthis; simpl;
    [|by apply evolves_refl].
  split; [|done]. intros t T Ht. simpl.
  destruct (decide (this = t)) as [->|Hne].
  - rewrite lookup_insert_eq. exists (f T0). split; [done|].
    rewrite Ht in Hthis. by injection Hthis as ->.
  - rewrite lookup_insert_ne by done. eauto.
Qed.

(** Every call but the assignment of a description, given that [R] allows
    what [lock] does. *)
Lemma evolving_invoke this c :
  (∀ T, R this T (locked_fields T)) →
  (∀ desc, c ≠ SetDescription desc) →
  evolving R (invoke this c).
Proof.
  intros Hlock Hc. destruct c; simpl;
    try (by (unfold Task.builtin, Task.say, Task.prepend, Task.spawn,
               Task.prependSpawn, Task.prependSay, Task.env;
             auto 10 using evolving_reset, evolving_steps,
               evolving_renderSpec with evolving)).
  - by apply evolving_put.
  - by destruct (Hc desc).
Qed.

End EvolutionLemmas.

(** The sample store is the one the constructor produces. *)
Example build_heap_constructed :
  Task.constructor "build" no_props empty_heap = Return 1%positive build_heap.
Proof. vm_compute. reflexivity. Qed.

(** ** The read-only fields and the lock flag under arbitrary client code *)

Lemma same_identity_refl T : same_identity T T.
Proof. by repeat split. Qed.

Lemma same_identity_trans T1 T2 T3 :
  same_identity T1 T2 → same_identity T2 T3 → same_identity T1 T3.
Proof.
  unfold same_identity. intros (?&?&?&?&?&?&?) (?&?&?&?&?&?&?).
  repeat split; try congruence. auto.
Qed.

Lemma identity_perform a σ : evolves (λ _, same_identity) σ (perform a σ).
Proof.
  destruct a as [n props|this c|a f|o k v|r f]; simpl.
  - apply evolving_constructor;
      eauto using same_identity_refl, same_identity_trans.
  - assert ((∃ desc, c = SetDescription desc) ∨ ∀ desc, c ≠ SetDescription desc)
      as [[desc ->]|Hc] by (destruct c; eauto).
    + simpl. apply evolving_put; [eauto using same_identity_refl ..|].
      intros T. by repeat split.
    + apply evolving_invoke;
        eauto using same_identity_refl, same_identity_trans.
      intros T. by repeat split.
  - apply evolving_mutate_array;
      eauto using same_identity_refl, same_identity_trans.
  - apply evolving_object_set;
      eauto using same_identity_refl, same_identity_trans.
  - apply evolving_mutate_strings;
      eauto using same_identity_refl, same_identity_trans.
Qed.

Lemma identity_run prog σ : evolves (λ _, same_identity) σ (run prog σ).
Proof.
  revert σ. induction prog as [|a prog IH]; intros σ; simpl.
  - apply evolves_refl. eauto using same_identity_refl.
  - eapply evolves_trans; [eauto using same_identity_trans | | apply IH].
    apply identity_perform.
Qed.

(** ** Lock enforcement *)

(** A guarded member called on a locked task throws and changes nothing. *)
Lemma mutator_locked σ t T c :
  tasks σ !! t = Some T →
  _locked T = true →
  mutator c = true →
  invoke t c σ = Throw (Error (Task.locked_message (name T))) σ.
Proof.
  intros Ht Hl Hc. destruct c; try discriminate Hc; simpl;
    by eapply guarded_locked.
Qed.

(** C1.  Once [t.lock()] has run, and whatever client code runs after it,
    a call of [exec], [spawn], [say], [builtin], [reset], [env], [prepend],
    [prependExec], [prependSpawn] or [prependSay] on [t] throws the error
    "Task ... is locked for changes" and leaves the store, hence [t.steps],
    as it was before the call. *)
Theorem lock_enforcement (σ : heap) (t : loc) (T : TaskObj)
    (prog : list action) (c : call) :
  tasks σ !! t = Some T →
  mutator c = true →
  let σ' := run prog (final (Task.lock t σ)) in
  invoke t c σ' = Throw (Error (Task.locked_message (name T))) σ'
  ∧ steps_of (final (invoke t c σ')) t = steps_of σ' t.
Proof.
  intros Ht Hc σ'.
  assert (tasks (final (Task.lock t σ)) !! t = Some (locked_fields T)) as Hlk.
  { unfold Task.lock, bind, get_task. rewrite Ht. simpl.
    apply lookup_insert_eq. }
  destruct (proj1 (identity_run prog _) t _ Hlk) as (T' & Ht' & Hid).
  destruct Hid as (Hname & _ & _ & _ & _ & _ & Hlocked).
  fold σ' in Ht'. simpl in Hname, Hlocked.
  assert (invoke t c σ' = Throw (Error (Task.locked_message (name T))) σ') as ->.
  { rewrite <- Hname. apply mutator_locked; auto. }
  done.
Qed.

Lemma lock_enforcement_witness :
  let prog := [Call 1%positive (SetDescription (Some "compile"));
               Call 1%positive (Exec "tsc" no_options);
               New "test" no_props] in
  let σ' := run prog (final (Task.lock 1%positive build_heap)) in
  invoke 1%positive (Reset None no_options) σ'
  = Throw (Error (Task.locked_message "build")) σ'
  ∧ steps_of (final (invoke 1%positive (Reset None no_options) σ')) 1%positive
    = steps_of σ' 1%positive.
Proof.
  apply (lock_enforcement build_heap 1%positive build_fields); reflexivity.
Defined.

(** ** Appending and prepending steps *)

(** Writing the step array of a task keeps the task where it is. *)
Lemma task_at_written σ t T l e l' :
  task_at σ t T l e →
  task_at (with_arrays σ (<[_steps T := l']> (arrays σ))) t T l' e.
Proof.
  intros (Ht & Ha & He). repeat split; simpl; [done| |done].
  apply lookup_insert_eq.
Qed.

Lemma invoke_append σ t T l e c step :
  task_at σ t T l e →
  _locked T = false →
  appended σ c = Some step →
  invoke t c σ
  = Return tt (with_arrays σ (<[_steps T := l ++ [step]]> (arrays σ))).
Proof.
  intros (Ht & Ha & He) Hl Hc.
  destruct c; try discriminate Hc; simpl in *.
  - injection Hc as <-. by eapply append_member.
  - injection Hc as <-. by eapply append_member.
  - injection Hc as <-. by eapply append_member.
  - destruct (tasks σ !! subtask) as [Sub|] eqn:Hsub; [|discriminate Hc].
    injection Hc as <-. unfold Task.spawn, bind at 1.
    rewrite (assertUnlocked_unlocked σ t T) by done.
    unfold bind, get_task. rewrite Ht. simpl. rewrite Hsub. simpl.
    by apply array_push_at.
Qed.

Lemma invoke_prepend σ t T l e c step :
  task_at σ t T l e →
  _locked T = false →
  prepended σ c = Some step →
  invoke t c σ
  = Return tt (with_arrays σ (<[_steps T := step :: l]> (arrays σ))).
Proof.
  intros (Ht & Ha & He) Hl Hc.
  destruct c; try discriminate Hc; simpl in *.
  - injection Hc as <-. unfold Task.prepend, bind at 1.
    rewrite (assertUnlocked_unlocked σ t T) by done.
    by eapply prepend_member.
  - injection Hc as <-. by eapply prepend_member.
  - destruct (tasks σ !! subtask) as [Sub|] eqn:Hsub; [|discriminate Hc].
    injection Hc as <-. unfold Task.prependSpawn, bind at 1.
    rewrite (assertUnlocked_unlocked σ t T) by done.
    unfold bind, get_task. rewrite Ht. simpl. rewrite Hsub. simpl.
    by apply array_unshift_at.
  - injection Hc as <-. by eapply prepend_member.
Qed.

(** C2, as stated, fails on a task that already has steps:
    [new Task("compile", { exec: "tsc" })] is unlocked, and after
    [exec("a"); exec("b")] its steps are the three steps tsc, a, b. *)
Lemma order_preservation_counterexample :
  task_at compile_heap 1%positive compile_fields [exec_step "tsc" no_options] ∅
  ∧ _locked compile_fields = false
  ∧ steps_of (run [Call 1%positive (Exec "a" no_options);
                   Call 1%positive (Exec "b" no_options)] compile_heap)
             1%positive
    ≠ Some [exec_step "a" no_options; exec_step "b" no_options].
Proof.
  split; [by repeat split|]. split; [done|].
  intros H. vm_compute in H. discriminate H.
Qed.

(** C2, amended.  On an unlocked task whose steps are [p], every appending
    member ([exec], [builtin], [say], [spawn]) returns and puts its step
    after [p], every prepending member ([prepend], [prependExec],
    [prependSay], [prependSpawn]) returns and puts its step before [p]; so
    [exec(a); exec(b)] gives [p ++ [a; b]] and a following [prependExec(c)]
    gives [c :: p ++ [a; b]], which for a task without steps are
    [[a; b]] and [[c; a; b]]. *)
Theorem order_preservation (σ : heap) (t : loc) (T : TaskObj)
    (p : list TaskStep) (e : gmap string string) :
  task_at σ t T p e →
  _locked T = false →
  (∀ c step, appended σ c = Some step →
     ∃ σ', invoke t c σ = Return tt σ' ∧ steps_of σ' t = Some (p ++ [step]))
  ∧ (∀ c step, prepended σ c = Some step →
     ∃ σ', invoke t c σ = Return tt σ' ∧ steps_of σ' t = Some (step :: p))
  ∧ (∀ a b c oa ob oc,
     ∃ σ1 σ2 σ3,
       Task.exec t a oa σ = Return tt σ1
       ∧ Task.exec t b ob σ1 = Return tt σ2
       ∧ Task.prependExec t c oc σ2 = Return tt σ3
       ∧ steps_of σ2 t = Some (p ++ [exec_step a oa; exec_step b ob])
       ∧ steps_of σ3 t
         = Some (exec_step c oc :: p ++ [exec_step a oa; exec_step b ob])).
Proof.
  intros Hat Hl. split; [|split].
  - intros c step Hc. eexists. split; [by eapply invoke_append|].
    eapply steps_of_at, task_at_written, Hat.
  - intros c step Hc. eexists. split; [by eapply invoke_prepend|].
    eapply steps_of_at, task_at_written, Hat.
  - intros a b c oa ob oc.
    pose proof (task_at_written _ _ _ _ _ (p ++ [exec_step a oa]) Hat) as Hat1.
    pose proof (task_at_written _ _ _ _ _
                  ((p ++ [exec_step a oa]) ++ [exec_step b ob]) Hat1) as Hat2.
    pose proof (task_at_written _ _ _ _ _
                  (exec_step c oc :: (p ++ [exec_step a oa]) ++ [exec_step b ob])
                  Hat2) as Hat3.
    do 3 eexists. split; [|split; [|split; [|split]]].
    + by apply (invoke_append σ t T p e (Exec a oa)).
    + by eapply (invoke_append _ t T _ e (Exec b ob)).
    + by eapply (invoke_prepend _ t T _ e (PrependExec c oc)).
    + rewrite (steps_of_at _ _ _ _ _ Hat2). by rewrite <- app_assoc.
    + rewrite (steps_of_at _ _ _ _ _ Hat3). by rewrite <- app_assoc.
Qed.

Lemma order_preservation_witness :
  ∃ σ1 σ2 σ3,
    Task.exec 1%positive "a" no_options build_heap = Return tt σ1
    ∧ Task.exec 1%positive "b" no_options σ1 = Return tt σ2
    ∧ Task.prependExec 1%positive "c" no_options σ2 = Return tt σ3
    ∧ steps_of σ2 1%positive
      = Some ([] ++ [exec_step "a" no_options; exec_step "b" no_options])
    ∧ steps_of σ3 1%positive
      = Some (exec_step "c" no_options
              :: [] ++ [exec_step "a" no_options; exec_step "b" no_options]).
Proof.
  refine (proj2 (proj2 (order_preservation build_heap 1%positive build_fields
                          [] ∅ _ _)) "a" "b" "c" no_options no_options no_options).
  - repeat split.
  - reflexivity.
Defined.

Example compile_heap_constructed :
  Task.constructor "compile"
    {| props_description := None; props_env := None; props_condition := None;
       props_cwd := None; props_requiredEnv := None; props_exec := Some "tsc" |}
    empty_heap
  = Return 1%positive compile_heap.
Proof. vm_compute. reflexivity. Qed.

(** ** The rendered spec *)

Lemma renderSpec_at σ t T :
  tasks σ !! t = Some T →
  Task._renderSpec t σ
  = Return {| spec_name := name T; spec_description := _description T;
              spec_env := _env T; spec_requiredEnv := requiredEnv T;
              spec_steps := _steps T; spec_condition := condition T;
              spec_cwd := cwd T |} σ.
Proof.
  intros Ht. unfold Task._renderSpec, Task.description, bind, get_task.
  rewrite Ht. simpl. by rewrite Ht.
Qed.

Lemma env_at σ t T l e n v :
  task_at σ t T l e →
  _locked T = false →
  Task.env t n v σ
  = Return tt (with_objects σ (<[_env T := set_property e n v]> (objects σ))).
Proof.
  intros (Ht & Ha & He) Hl. unfold Task.env, bind at 1.
  rewrite (assertUnlocked_unlocked σ t T) by done.
  unfold bind, get_task, object_set. rewrite Ht. simpl. by rewrite He.
Qed.

(** Every name but ["__proto__"] is written as a property. *)
Lemma set_property_ordinary (m : gmap string string) (k v : string) :
  k ≠ "__proto__" → set_property m k v = <[k := v]> m.
Proof.
  intros Hk. unfold set_property. case_decide as Hcase; [|done].
  by destruct Hcase.
Qed.

(** ["__proto__"] is not stored in an object that has no such property. *)
Lemma set_property_proto (m : gmap string string) (v : string) :
  m !! "__proto__" = None → set_property m "__proto__" v = m.
Proof.
  intros Hm. unfold set_property. case_decide as Hcase; [done|].
  by destruct Hcase.
Qed.

Lemma task_at_env_written σ t T l e e' :
  task_at σ t T l e →
  task_at (with_objects σ (<[_env T := e']> (objects σ))) t T l e'.
Proof.
  intros (Ht & Ha & He). repeat split; simpl; [done|done|].
  apply lookup_insert_eq.
Qed.

(** C3, as stated, fails: the spec rendered from [new Task("build")] has
    no steps and an empty environment when it is produced; after
    [exec("c")] its [steps] hold one step, and after [env("A", "1")] its
    [env] has one entry. *)
Lemma rendered_spec_counterexample :
  ∃ s, Task._renderSpec 1%positive build_heap = Return s build_heap
       ∧ spec_steps_in (final (Task.exec 1%positive "c" no_options build_heap)) s
         ≠ spec_steps_in build_heap s
       ∧ spec_env_in (final (Task.env 1%positive "A" "1" build_heap)) s
         ≠ spec_env_in build_heap s.
Proof.
  eexists. split; [reflexivity|]. split.
  - intros H. vm_compute in H. discriminate H.
  - intros H. vm_compute in H. discriminate H.
Qed.

(** C3, amended.  The entry [s] returned by [_renderSpec()] shares the step
    array and the environment object with the task: for an unlocked task
    with steps [l] and environment [e], [s.steps] reads [l] and [s.env]
    reads [e] when [s] is produced; after [t.exec(c)], [s.steps] reads [l]
    followed by the new step, which is what the task itself holds; after
    [t.env(n, v)], [s.env] reads what the task itself holds, and for a name
    other than ["__proto__"] that is [e] with [n] set to [v]. *)
Theorem rendered_spec_shares (σ : heap) (t : loc) (T : TaskObj)
    (l : list TaskStep) (e : gmap string string) :
  task_at σ t T l e →
  _locked T = false →
  ∃ s, Task._renderSpec t σ = Return s σ
       ∧ spec_steps_in σ s = Some l
       ∧ spec_env_in σ s = Some e
       ∧ (∀ c o, ∃ σ', Task.exec t c o σ = Return tt σ'
                       ∧ spec_steps_in σ' s = Some (l ++ [exec_step c o])
                       ∧ spec_steps_in σ' s = steps_of σ' t)
       ∧ (∀ n v, ∃ σ', Task.env t n v σ = Return tt σ'
                       ∧ spec_env_in σ' s = env_of σ' t
                       ∧ (n ≠ "__proto__" →
                          spec_env_in σ' s = Some (<[n := v]> e))).
Proof.
  intros Hat Hl. pose proof Hat as (Ht & Ha & He).
  eexists. split; [by apply renderSpec_at|].
  split; [done|]. split; [done|]. split.
  - intros c o. eexists. split.
    { by apply (invoke_append σ t T l e (Exec c o)). }
    pose proof (task_at_written _ _ _ _ _ (l ++ [exec_step c o]) Hat) as Hat'.
    rewrite (steps_of_at _ _ _ _ _ Hat').
    split; apply Hat'.
  - intros n v. eexists. split; [by eapply env_at|].
    pose proof (task_at_env_written _ _ _ _ _ (set_property e n v) Hat) as Hat'.
    rewrite (env_of_at _ _ _ _ _ Hat').
    split; [apply Hat'|].
    intros Hn. rewrite <- (set_property_ordinary e n v Hn). apply Hat'.
Qed.

Lemma rendered_spec_shares_witness :
  ∃ s, Task._renderSpec 1%positive compile_heap = Return s compile_heap
       ∧ spec_steps_in compile_heap s = Some [exec_step "tsc" no_options]
       ∧ spec_env_in compile_heap s = Some ∅
       ∧ (∀ c o, ∃ σ', Task.exec 1%positive c o compile_heap = Return tt σ'
                       ∧ spec_steps_in σ' s
                         = Some ([exec_step "tsc" no_options] ++ [exec_step c o])
                       ∧ spec_steps_in σ' s = steps_of σ' 1%positive)
       ∧ (∀ n v, ∃ σ', Task.env 1%positive n v compile_heap = Return tt σ'
                       ∧ spec_env_in σ' s = env_of σ' 1%positive
                       ∧ (n ≠ "__proto__" →
                          spec_env_in σ' s = Some (<[n := v]> ∅))).
Proof.
  apply (rendered_spec_shares compile_heap 1%positive compile_fields).
  - repeat split.
  - reflexivity.
Defined.

(** ** [reset] *)

Lemma drop_tail {A} (l : list A) n : drop n (tail l) = drop (S n) l.
Proof. destruct l; simpl; [by rewrite drop_nil|done]. Qed.

Lemma with_arrays_twice σ m m' :
  with_arrays (with_arrays σ m) m' = with_arrays σ m'.
Proof. done. Qed.

(** The loop of [reset] removes as many elements as it has iterations. *)
Lemma shift_while_at a pending : ∀ σ l,
  arrays σ !! a = Some l →
  Task.shift_while a pending σ
  = Return tt (with_arrays σ (<[a := drop (length pending) l]> (arrays σ))).
Proof.
  induction pending as [|x pending IH]; intros σ l Ha; simpl.
  - rewrite drop_0, insert_id by done. by destruct σ.
  - unfold bind, array_shift, bind, read_array, write_array.
    rewrite Ha. simpl. rewrite Ha.
    erewrite IH; [|simpl; apply lookup_insert_eq].
    rewrite with_arrays_twice. simpl.
    by rewrite insert_insert_eq, drop_tail.
Qed.

Lemma reset_at σ t T l e command options :
  task_at σ t T l e →
  _locked T = false →
  Task.reset t command options σ
  = Return tt
      (with_arrays σ
         (<[_steps T := match truthy command with
                        | Some c => [exec_step c options]
                        | None => []
                        end]> (arrays σ))).
Proof.
  intros Hat Hl. pose proof Hat as (Ht & Ha & He).
  unfold Task.reset, bind at 1.
  rewrite (assertUnlocked_unlocked σ t T) by done.
  unfold bind at 1, get_task. rewrite Ht.
  unfold bind at 1, read_array. rewrite Ha.
  unfold bind at 1. erewrite shift_while_at by done.
  rewrite drop_all.
  pose proof (task_at_written _ _ _ _ _ [] Hat) as Hat'.
  destruct (truthy command) as [c|]; [|done].
  change (Task.exec t c options) with (invoke t (Exec c options)).
  rewrite (invoke_append _ t T [] e (Exec c options) (exec_step c options))
    by done.
  rewrite with_arrays_twice. simpl. by rewrite insert_insert_eq.
Qed.

(** C5, as stated, fails for the empty command: [if (command)] treats the
    empty string like a missing argument, so [reset("", {})] on
    [new Task("compile", { exec: "tsc" })] leaves no step at all. *)
Lemma reset_counterexample :
  task_at compile_heap 1%positive compile_fields [exec_step "tsc" no_options] ∅
  ∧ _locked compile_fields = false
  ∧ steps_of (final (Task.reset 1%positive (Some EmptyString) no_options
                       compile_heap)) 1%positive
    = Some []
  ∧ steps_of (final (Task.reset 1%positive (Some EmptyString) no_options
                       compile_heap)) 1%positive
    ≠ Some [exec_step EmptyString no_options].
Proof.
  split; [by repeat split|]. split; [done|]. split; [reflexivity|].
  intros H. vm_compute in H. discriminate H.
Qed.

(** C5, amended.  On an unlocked task, whatever steps it had, [reset]
    returns; with no command, or with the empty string as command, the step
    sequence is empty afterwards; with a non-empty command [cmd] it is the
    single step [{ exec: cmd, ...opts }]. *)
Theorem reset_steps (σ : heap) (t : loc) (T : TaskObj)
    (l : list TaskStep) (e : gmap string string) (opts : TaskStepOptions) :
  task_at σ t T l e →
  _locked T = false →
  (∃ σ', Task.reset t None opts σ = Return tt σ' ∧ steps_of σ' t = Some [])
  ∧ (∃ σ', Task.reset t (Some EmptyString) opts σ = Return tt σ'
           ∧ steps_of σ' t = Some [])
  ∧ (∀ cmd, cmd ≠ EmptyString →
       ∃ σ', Task.reset t (Some cmd) opts σ = Return tt σ'
             ∧ steps_of σ' t = Some [exec_step cmd opts]).
Proof.
  intros Hat Hl. split; [|split].
  - eexists. split; [by eapply reset_at|].
    eapply steps_of_at, task_at_written, Hat.
  - eexists. split; [by eapply reset_at|].
    eapply steps_of_at, task_at_written, Hat.
  - intros cmd Hcmd. eexists. split; [by eapply reset_at|].
    destruct cmd as [|ch cmd]; [done|]. simpl.
    eapply steps_of_at, task_at_written, Hat.
Qed.

Lemma reset_steps_witness :
  (∃ σ', Task.reset 1%positive None no_options compile_heap = Return tt σ'
         ∧ steps_of σ' 1%positive = Some [])
  ∧ (∃ σ', Task.reset 1%positive (Some EmptyString) no_options compile_heap
           = Return tt σ'
           ∧ steps_of σ' 1%positive = Some [])
  ∧ (∀ cmd, cmd ≠ EmptyString →
       ∃ σ', Task.reset 1%positive (Some cmd) no_options compile_heap
             = Return tt σ'
             ∧ steps_of σ' 1%positive = Some [exec_step cmd no_options]).
Proof.
  apply (reset_steps compile_heap 1%positive compile_fields
           [exec_step "tsc" no_options] ∅ no_options).
  - repeat split.
  - reflexivity.
Defined.

(** ** [env] *)

(** C6.  [env] is an upsert with last write wins for every name but one.
    On an unlocked task, [env(n, v1)] and then [env(n, v2)] both return,
    whatever the values are.  For a name other than ["__proto__"] the
    environment of the rendered spec then maps [n] to [v2] and every other
    name to what it was mapped to before.  For the name ["__proto__"], on an
    environment without a property of that name, nothing is stored: the
    rendered environment is the one before the calls and has no entry for
    the name. *)
Theorem env_upsert (σ : heap) (t : loc) (T : TaskObj)
    (l : list TaskStep) (e : gmap string string) (n v1 v2 : string) :
  task_at σ t T l e →
  _locked T = false →
  ∃ σ1 σ2 s m,
    Task.env t n v1 σ = Return tt σ1
    ∧ Task.env t n v2 σ1 = Return tt σ2
    ∧ Task._renderSpec t σ2 = Return s σ2
    ∧ spec_env_in σ2 s = Some m
    ∧ (n ≠ "__proto__" →
       m !! n = Some v2 ∧ ∀ n', n' ≠ n → m !! n' = e !! n')
    ∧ (n = "__proto__" → e !! n = None → m = e ∧ m !! n = None).
Proof.
  intros Hat Hl.
  pose proof (task_at_env_written _ _ _ _ _ (set_property e n v1) Hat) as Hat1.
  pose proof (task_at_env_written _ _ _ _ _
                (set_property (set_property e n v1) n v2) Hat1) as Hat2.
  do 4 eexists. split; [by eapply env_at|].
  split; [by eapply env_at|].
  split; [apply renderSpec_at, Hat2|].
  split; [apply Hat2|]. split.
  - intros Hn. rewrite !set_property_ordinary by done.
    split; [apply lookup_insert_eq|].
    intros n' Hn'. by rewrite !lookup_insert_ne.
  - intros -> He. rewrite (set_property_proto e v1) by done.
    rewrite (set_property_proto e v2) by done. by split.
Qed.

Lemma env_upsert_witness :
  ∃ σ1 σ2 s m,
    Task.env 1%positive "__proto__" "dev" build_heap = Return tt σ1
    ∧ Task.env 1%positive "__proto__" "prod" σ1 = Return tt σ2
    ∧ Task._renderSpec 1%positive σ2 = Return s σ2
    ∧ spec_env_in σ2 s = Some m
    ∧ ("__proto__" ≠ "__proto__" →
       m !! "__proto__" = Some "prod"
       ∧ ∀ n', n' ≠ "__proto__" → m !! n' = (∅ : gmap string string) !! n')
    ∧ ("__proto__" = "__proto__" → (∅ : gmap string string) !! "__proto__" = None →
       m = ∅ ∧ m !! "__proto__" = None).
Proof.
  apply (env_upsert build_heap 1%positive build_fields []).
  - repeat split.
  - reflexivity.
Defined.

(** The failing input of C6 evaluated: on [new Task("build")],
    [env("__proto__", "dev")] and [env("__proto__", "prod")] return and the
    rendered environment is still empty. *)
Example env_proto_not_stored :
  ∃ σ1 σ2 s,
    Task.env 1%positive "__proto__" "dev" build_heap = Return tt σ1
    ∧ Task.env 1%positive "__proto__" "prod" σ1 = Return tt σ2
    ∧ Task._renderSpec 1%positive σ2 = Return s σ2
    ∧ spec_env_in σ2 s = Some ∅.
Proof. do 3 eexists. repeat split; vm_compute; reflexivity. Qed.

(** ** The [steps] getter *)

Lemma steps_at σ t T l e :
  task_at σ t T l e →
  Task.steps t σ
  = Return (fresh (dom (arrays σ)))
      (with_arrays σ (<[fresh (dom (arrays σ)) := l]> (arrays σ))).
Proof.
  intros (Ht & Ha & He). unfold Task.steps, bind, get_task, read_array.
  rewrite Ht. simpl. by rewrite Ha.
Qed.

(** Writing an array other than the step array of the task. *)
Lemma task_at_other_written σ t T l e a l' :
  task_at σ t T l e →
  a ≠ _steps T →
  task_at (with_arrays σ (<[a := l']> (arrays σ))) t T l e.
Proof.
  intros (Ht & Ha & He) Hne. repeat split; simpl; [done| |done].
  by rewrite lookup_insert_ne.
Qed.

(** C9.  The array returned by the [steps] getter is a new array holding
    the steps of the task; whatever client code does to its contents
    (pushing, popping, reordering: any [f]), the task keeps its steps, and a
    later read of [steps] or of [_renderSpec().steps] gives the same
    sequence as before. *)
Theorem steps_returns_copy (σ : heap) (t : loc) (T : TaskObj)
    (l : list TaskStep) (e : gmap string string) :
  task_at σ t T l e →
  ∃ a σ1,
    Task.steps t σ = Return a σ1
    ∧ a ≠ _steps T
    ∧ arrays σ1 !! a = Some l
    ∧ steps_of σ1 t = Some l
    ∧ ∀ f, ∃ σ2,
        mutate_array a f σ1 = Return tt σ2
        ∧ arrays σ2 !! a = Some (f l)
        ∧ steps_of σ2 t = Some l
        ∧ (∃ a' σ3, Task.steps t σ2 = Return a' σ3 ∧ arrays σ3 !! a' = Some l)
        ∧ (∃ s, Task._renderSpec t σ2 = Return s σ2
                ∧ spec_steps_in σ2 s = Some l).
Proof.
  intros Hat. pose proof Hat as (Ht & Ha & He).
  set (a := fresh (dom (arrays σ))).
  assert (a ≠ _steps T) as Hne.
  { intros Heq. apply (is_fresh (dom (arrays σ))). fold a. rewrite Heq.
    apply elem_of_dom. eauto. }
  pose proof (task_at_other_written _ _ _ _ _ a l Hat Hne) as Hat1.
  exists a, (with_arrays σ (<[a := l]> (arrays σ))).
  split; [by eapply steps_at|]. split; [done|].
  split; [apply lookup_insert_eq|].
  split; [by eapply steps_of_at|].
  intros f.
  pose proof (task_at_other_written _ _ _ _ _ a (f l) Hat1 Hne) as Hat2.
  eexists. split.
  { unfold mutate_array, bind, read_array, write_array. simpl.
    rewrite lookup_insert_eq. simpl. by rewrite lookup_insert_eq. }
  split; [apply lookup_insert_eq|].
  split; [by eapply steps_of_at|]. split.
  - do 2 eexists. split; [by eapply steps_at|]. apply lookup_insert_eq.
  - eexists. split; [apply renderSpec_at, Hat2|]. apply Hat2.
Qed.

Lemma steps_returns_copy_witness :
  ∃ a σ1,
    Task.steps 1%positive compile_heap = Return a σ1
    ∧ a ≠ 1%positive
    ∧ arrays σ1 !! a = Some [exec_step "tsc" no_options]
    ∧ steps_of σ1 1%positive = Some [exec_step "tsc" no_options]
    ∧ ∀ f, ∃ σ2,
        mutate_array a f σ1 = Return tt σ2
        ∧ arrays σ2 !! a = Some (f [exec_step "tsc" no_options])
        ∧ steps_of σ2 1%positive = Some [exec_step "tsc" no_options]
        ∧ (∃ a' σ3, Task.steps 1%positive σ2 = Return a' σ3
                    ∧ arrays σ3 !! a' = Some [exec_step "tsc" no_options])
        ∧ (∃ s, Task._renderSpec 1%positive σ2 = Return s σ2
                ∧ spec_steps_in σ2 s = Some [exec_step "tsc" no_options]).
Proof.
  apply (steps_returns_copy compile_heap 1%positive compile_fields
           [exec_step "tsc" no_options] ∅).
  repeat split.
Defined.

(** ** The description *)

(** C10.  The description setter is not guarded by the lock: after
    [t.lock()], and whatever client code runs after it, [t.description = d]
    returns, the description getter and the [description] of the rendered
    spec then give [d], and the task is still locked. *)
Theorem description_not_guarded (σ : heap) (t : loc) (T : TaskObj)
    (prog : list action) (d : option string) :
  tasks σ !! t = Some T →
  let σ1 := run prog (final (Task.lock t σ)) in
  ∃ σ2 s T2,
    Task.set_description t d σ1 = Return tt σ2
    ∧ Task.description t σ2 = Return d σ2
    ∧ Task._renderSpec t σ2 = Return s σ2
    ∧ spec_description s = d
    ∧ tasks σ2 !! t = Some T2 ∧ _locked T2 = true.
Proof.
  intros Ht σ1.
  assert (tasks (final (Task.lock t σ)) !! t = Some (locked_fields T)) as Hlk.
  { unfold Task.lock, bind, get_task. rewrite Ht. simpl.
    apply lookup_insert_eq. }
  destruct (proj1 (identity_run prog _) t _ Hlk) as (T1 & Ht1 & Hid).
  destruct Hid as (_ & _ & _ & _ & _ & _ & Hlocked).
  fold σ1 in Ht1. simpl in Hlocked.
  set (σ2 := with_tasks σ1 (<[t := described_fields T1 d]> (tasks σ1))).
  assert (tasks σ2 !! t = Some (described_fields T1 d)) as Ht2
    by apply lookup_insert_eq.
  exists σ2. eexists. exists (described_fields T1 d).
  split. { unfold Task.set_description, bind, get_task. by rewrite Ht1. }
  split. { unfold Task.description, bind, get_task. by rewrite Ht2. }
  split; [by apply renderSpec_at|].
  split; [done|]. split; [done|]. simpl. auto.
Qed.

Lemma description_not_guarded_witness :
  let σ1 := run [Call 1%positive (Exec "tsc" no_options)]
                (final (Task.lock 1%positive build_heap)) in
  ∃ σ2 s T2,
    Task.set_description 1%positive (Some "Full build") σ1 = Return tt σ2
    ∧ Task.description 1%positive σ2 = Return (Some "Full build") σ2
    ∧ Task._renderSpec 1%positive σ2 = Return s σ2
    ∧ spec_description s = Some "Full build"
    ∧ tasks σ2 !! 1%positive = Some T2 ∧ _locked T2 = true.
Proof.
  apply (description_not_guarded build_heap 1%positive build_fields).
  reflexivity.
Defined.

(** ** The constructor and the rendered spec *)

(** The constructor returns a new, unlocked instance that holds the name and
    the properties it was given and a step array with the [exec] property as
    only step, if there is one. *)
Lemma constructor_at n props σ0 t σ1 :
  Task.constructor n props σ0 = Return t σ1 →
  ∃ T, tasks σ1 !! t = Some T
       ∧ name T = n
       ∧ condition T = props_condition props
       ∧ cwd T = props_cwd props
       ∧ requiredEnv T = props_requiredEnv props
       ∧ _description T = props_description props
       ∧ _locked T = false
       ∧ arrays σ1 !! _steps T
         = Some match truthy (props_exec props) with
                | Some c => [exec_step c no_options]
                | None => []
                end
       ∧ ((∀ e, props_env props = Some e → is_Some (objects σ0 !! e)) →
          is_Some (objects σ1 !! _env T)).
Proof.
  unfold Task.constructor. unfold bind at 1.
  destruct (match props_env props with
            | Some e => ret e
            | None => alloc_object ∅
            end σ0) as [e σa|ex σa] eqn:Henv.
  2:{ destruct (props_env props); discriminate Henv. }
  assert ((∀ e0, props_env props = Some e0 → is_Some (objects σ0 !! e0)) →
          is_Some (objects σa !! e)) as Hobj.
  { intros Hprops. destruct (props_env props) as [e0|].
    - injection Henv as <- <-. by apply Hprops.
    - injection Henv as <- <-. simpl. rewrite lookup_insert_eq. eauto. }
  unfold bind at 1. simpl. unfold bind at 1. simpl.
  set (s := fresh (dom (arrays σa))).
  set (this := fresh (dom (tasks σa))).
  set (T := {| name := n; condition := props_condition props; _steps := s;
               _env := e; cwd := props_cwd props;
               requiredEnv := props_requiredEnv props; _locked := false;
               _description := props_description props |}).
  set (σb := with_tasks (with_arrays σa (<[s := []]> (arrays σa)))
               (<[this := T]> (tasks σa))).
  assert (tasks σb !! this = Some T) as Hthis by apply lookup_insert_eq.
  assert (arrays σb !! _steps T = Some []) as Harr by apply lookup_insert_eq.
  destruct (truthy (props_exec props)) as [c|].
  - unfold bind. unfold Task.exec.
    rewrite (append_member σb this T Hthis (exec_step c no_options) [])
      by done.
    intros [= <- <-]. exists T. repeat split; try done.
    simpl. apply lookup_insert_eq.
  - intros [= <- <-]. exists T. by repeat split.
Qed.

(** A task made by the constructor has its step array and, when
    [props.env] is absent or refers to an object, its environment. *)
Lemma constructor_task_at n props σ0 t σ1 :
  Task.constructor n props σ0 = Return t σ1 →
  (∀ e, props_env props = Some e → is_Some (objects σ0 !! e)) →
  ∃ T l e, task_at σ1 t T l e ∧ _locked T = false.
Proof.
  intros Hnew Hprops.
  destruct (constructor_at _ _ _ _ _ Hnew)
    as (T & Ht & _ & _ & _ & _ & _ & Hl & Ha & Ho).
  destruct (Ho Hprops) as [e He]. do 2 eexists. exists e. by repeat split.
Qed.

(** Client code never takes the step array or the environment of a task
    away. *)
Lemma task_at_run σ t T l e prog :
  task_at σ t T l e →
  ∃ T' l' e', task_at (run prog σ) t T' l' e' ∧ same_identity T T'.
Proof.
  intros (Ht & Ha & He).
  destruct (identity_run prog σ) as (Htasks & Harrays & Hobjects).
  destruct (Htasks t T Ht) as (T' & Ht' & Hid).
  pose proof Hid as (_ & _ & Hsteps & Henv & _).
  assert (is_Some (arrays (run prog σ) !! _steps T')) as [l' Hl'].
  { apply elem_of_dom, Harrays, elem_of_dom. rewrite Hsteps. eauto. }
  assert (is_Some (objects (run prog σ) !! _env T')) as [e' He'].
  { apply elem_of_dom, Hobjects, elem_of_dom. rewrite Henv. eauto. }
  by exists T', l', e'.
Qed.

(** The constructor always returns. *)
Lemma constructor_returns n props σ0 :
  ∃ t σ1, Task.constructor n props σ0 = Return t σ1.
Proof.
  unfold Task.constructor. unfold bind at 1.
  destruct (match props_env props with
            | Some e => ret e
            | None => alloc_object ∅
            end σ0) as [e σa|ex σa] eqn:Henv.
  2:{ destruct (props_env props); discriminate Henv. }
  unfold bind at 1. simpl. unfold bind at 1. simpl.
  destruct (truthy (props_exec props)) as [c|]; [|by eauto].
  unfold bind. unfold Task.exec.
  erewrite append_member; [by eauto|apply lookup_insert_eq|done|].
  simpl. apply lookup_insert_eq.
Qed.

Lemma description_perform t a σ :
  (∀ d, a ≠ Call t (SetDescription d)) →
  evolves (keeps_description t) σ (perform a σ).
Proof.
  assert (∀ t' T, keeps_description t t' T T) as Hrefl by done.
  assert (∀ t' T1 T2 T3, keeps_description t t' T1 T2 →
            keeps_description t t' T2 T3 → keeps_description t t' T1 T3)
    as Htrans.
  { unfold keeps_description. intros t' T1 T2 T3 H12 H23 Heq.
    rewrite H23, H12; done. }
  intros Ha. destruct a as [n props|this c|a f|o k v|r f]; simpl.
  - by apply evolving_constructor.
  - assert ((∃ desc, c = SetDescription desc) ∨ ∀ desc, c ≠ SetDescription desc)
      as [[desc ->]|Hc] by (destruct c; eauto).
    + simpl. apply evolving_put; [done..|].
      intros T ->. by destruct (Ha desc).
    + by apply evolving_invoke.
  - by apply evolving_mutate_array.
  - by apply evolving_object_set.
  - by apply evolving_mutate_strings.
Qed.

Lemma description_run t prog : ∀ σ,
  (∀ d, Call t (SetDescription d) ∉ prog) →
  evolves (keeps_description t) σ (run prog σ).
Proof.
  induction prog as [|a prog IH]; intros σ Hprog; simpl.
  - by apply evolves_refl.
  - eapply evolves_trans; [| |apply IH].
    + unfold keeps_description. intros t' T1 T2 T3 H12 H23 Heq.
      rewrite H23, H12; done.
    + apply description_perform. intros d ->. apply (Hprog d). left.
    + intros d Hin. apply (Hprog d). by right.
Qed.

(** ** The task inspector *)

Section CliProperties.

Context (manifest : gmap string TaskSpecData) (underline bold : string → string).

Abbreviation inspect_steps' := (inspect_steps bold).
Abbreviation inspectTask' := (inspectTask manifest underline bold).
Abbreviation inspect' := (inspect manifest underline bold).
Abbreviation spawns' := (spawns manifest).

(** *** No task is run *)

Lemma header_no_run indent task :
  Forall (λ e, is_run e = false) (header underline indent task).
Proof.
  unfold header. apply Forall_app. split.
  - destruct (truthy (data_description task)); repeat constructor.
  - apply Forall_fmap. by apply Forall_true.
Qed.

Lemma inspect_steps_no_run self indent steps :
  (∀ n i, Forall (λ e, is_run e = false) (self n i).1) →
  Forall (λ e, is_run e = false) (inspect_steps' self indent steps).1.
Proof.
  intros Hself. induction steps as [|step rest IH]; simpl; [constructor|].
  destruct (inspect_steps' self indent rest) as [tr' out'].
  destruct (truthy (step_spawn step)) as [sub|].
  - specialize (Hself sub (indent + 2)).
    destruct (self sub (indent + 2)) as [tr out].
    destruct out; simpl in *; constructor; try done.
    apply Forall_app. by split.
  - simpl. apply Forall_app. split; [|done].
    destruct (truthy (step_exec step)); [by repeat constructor|].
    destruct (truthy (step_builtin step)); by repeat constructor.
Qed.

Lemma inspectTask_no_run fuel : ∀ name indent,
  Forall (λ e, is_run e = false) (inspectTask' fuel name indent).1.
Proof.
  induction fuel as [|fuel IH]; intros name indent; simpl; [constructor|].
  destruct (tryFindTask manifest name) as [task|]; [|by repeat constructor].
  pose proof (inspect_steps_no_run (inspectTask' fuel) indent
                (default [] (data_steps task)) IH) as Hsteps.
  destruct (inspect_steps' (inspectTask' fuel) indent
              (default [] (data_steps task))) as [tr out].
  simpl in *. constructor; [done|].
  apply Forall_app. split; [apply header_no_run|done].
Qed.

(** *** The loop over the steps, as far as the recursive calls go *)

Lemma inspect_steps_cons self indent step rest :
  inspect_steps' self indent (step :: rest)
  = match truthy (step_spawn step) with
    | Some sub =>
      let '(tr, out) := self sub (indent + 2) in
      match out with
      | Finished =>
        let '(tr', out') := inspect_steps' self indent rest in
        (writeln indent ("- " +:+ bold sub) :: tr ++ tr', out')
      | _ => (writeln indent ("- " +:+ bold sub) :: tr, out)
      end
    | None =>
      let line :=
        match truthy (step_exec step) with
        | Some c => [writeln indent ("- exec: " +:+ c)]
        | None =>
          match truthy (step_builtin step) with
          | Some b => [writeln indent ("- builtin: " +:+ b)]
          | None => []
          end
        end in
      let '(tr', out') := inspect_steps' self indent rest in
      (line ++ tr', out')
    end.
Proof. done. Qed.

Lemma inspect_steps_ext self self' indent steps :
  (∀ step sub, step ∈ steps → truthy (step_spawn step) = Some sub →
     self sub (indent + 2) = self' sub (indent + 2)) →
  inspect_steps' self indent steps = inspect_steps' self' indent steps.
Proof.
  induction steps as [|step rest IH]; intros Hsame; simpl; [done|].
  rewrite IH by (intros; eapply Hsame; [by right|done]).
  destruct (truthy (step_spawn step)) as [sub|] eqn:Hsub; [|done].
  by rewrite (Hsame step sub) by (done || left).
Qed.

Lemma inspect_steps_fuel self indent steps :
  (∀ step sub, step ∈ steps → truthy (step_spawn step) = Some sub →
     (self sub (indent + 2)).2 ≠ OutOfFuel) →
  (inspect_steps' self indent steps).2 ≠ OutOfFuel.
Proof.
  induction steps as [|step rest IH]; intros Hsub; simpl; [done|].
  assert ((inspect_steps' self indent rest).2 ≠ OutOfFuel) as Hrest
    by (apply IH; intros; eapply Hsub; [by right|done]).
  destruct (inspect_steps' self indent rest) as [tr' out'].
  destruct (truthy (step_spawn step)) as [sub|] eqn:Hspawn; [|done].
  specialize (Hsub step sub (list_elem_of_here _ _) Hspawn).
  destruct (self sub (indent + 2)) as [tr out].
  by destruct out.
Qed.

(** One unfolding of [inspectTask]. *)
Lemma inspectTask_succ fuel name indent :
  inspectTask' (S fuel) name indent
  = match tryFindTask manifest name with
    | None => ([TryFindTask name], Threw (unresolved_message name))
    | Some task =>
      let '(tr, out) :=
        inspect_steps' (inspectTask' fuel) indent
          (default [] (data_steps task)) in
      (TryFindTask name :: header underline indent task ++ tr, out)
    end.
Proof. done. Qed.

(** *** Termination on acyclic manifests *)

(** [seen] are tasks on the way to [name]; each call that resolves a task
    adds one to them, and there are only as many as the manifest has. *)
Lemma inspectTask_fuel_seen :
  acyclic manifest →
  ∀ fuel name indent (seen : gset string),
    seen ⊆ dom manifest →
    (∀ v, v ∈ seen → tc spawns' v name) →
    size (dom manifest ∖ seen) < fuel →
    (inspectTask' fuel name indent).2 ≠ OutOfFuel.
Proof.
  intros Hacyclic fuel.
  induction fuel as [|fuel IH]; intros name indent seen Hdom Hseen Hsize;
    [lia|].
  simpl. destruct (tryFindTask manifest name) as [task|] eqn:Hfind; [|done].
  assert (name ∈ dom manifest) as Hname by (apply elem_of_dom; eauto).
  assert (name ∉ seen) as Hfresh.
  { intros Hin. apply (Hacyclic name). by apply Hseen. }
  pose proof (inspect_steps_fuel (inspectTask' fuel) indent
                (default [] (data_steps task))) as Hsteps.
  destruct (inspect_steps' (inspectTask' fuel) indent
              (default [] (data_steps task))) as [tr out].
  simpl in *. apply Hsteps. intros step sub Hstep Hspawn.
  assert (spawns' name sub) as Hedge by (exists task, step; done).
  apply (IH sub (indent + 2) (seen ∪ {[name]})).
  - apply union_subseteq. split; [done|]. by apply singleton_subseteq_l.
  - intros v [Hv| ->%elem_of_singleton]%elem_of_union.
    + eapply tc_r; [by apply Hseen|done].
    + by apply tc_once.
  - assert (dom manifest ∖ (seen ∪ {[name]}) ⊂ dom manifest ∖ seen) as Hsub.
    { split.
      - intros v [Hv Hnot]%elem_of_difference. apply elem_of_difference.
        split; [done|]. intros Hin. apply Hnot, elem_of_union. by left.
      - intros Hsubset.
        assert (name ∈ dom manifest ∖ (seen ∪ {[name]})) as Hbad.
        { apply Hsubset, elem_of_difference. done. }
        apply elem_of_difference in Hbad as [_ Hbad]. apply Hbad.
        apply elem_of_union. right. by apply elem_of_singleton. }
    apply subset_size in Hsub. lia.
Qed.

Lemma inspectTask_terminates :
  acyclic manifest →
  ∀ fuel name indent,
    size manifest < fuel → (inspectTask' fuel name indent).2 ≠ OutOfFuel.
Proof.
  intros Hacyclic fuel name indent Hfuel.
  apply (inspectTask_fuel_seen Hacyclic fuel name indent ∅).
  - apply empty_subseteq.
  - intros v Hv. by apply elem_of_empty in Hv.
  - rewrite difference_empty_L, size_dom. done.
Qed.

(** *** More fuel changes nothing *)

Lemma inspectTask_more_fuel fuel : ∀ name indent,
  (inspectTask' fuel name indent).2 ≠ OutOfFuel →
  inspectTask' (S fuel) name indent = inspectTask' fuel name indent.
Proof.
  induction fuel as [|fuel IH]; intros name indent Hout; [done|].
  rewrite (inspectTask_succ (S fuel)). rewrite inspectTask_succ in Hout |- *.
  destruct (tryFindTask manifest name) as [task|]; [|done].
  assert (inspect_steps' (inspectTask' (S fuel)) indent
            (default [] (data_steps task))
          = inspect_steps' (inspectTask' fuel) indent
              (default [] (data_steps task))) as ->; [|done].
  assert ((inspect_steps' (inspectTask' fuel) indent
             (default [] (data_steps task))).2 ≠ OutOfFuel) as Hsteps.
  { destruct (inspect_steps' (inspectTask' fuel) indent
                (default [] (data_steps task))). done. }
  clear Hout. revert Hsteps.
  induction (default [] (data_steps task)) as [|step rest IHsteps];
    [done|].
  rewrite !inspect_steps_cons.
  destruct (truthy (step_spawn step)) as [sub|].
  - destruct (inspectTask' fuel sub (indent + 2)) as [tr out] eqn:Hsub.
    assert (out ≠ OutOfFuel → inspectTask' (S fuel) sub (indent + 2) = (tr, out))
      as Hsame.
    { intros Hne. rewrite IH; [done|]. by rewrite Hsub. }
    destruct out.
    + rewrite Hsame by done.
      destruct (inspect_steps' (inspectTask' fuel) indent rest)
        as [tr' out'] eqn:Hrest.
      intros Hne. by rewrite IHsteps.
    + by rewrite Hsame.
    + done.
  - destruct (inspect_steps' (inspectTask' fuel) indent rest)
      as [tr' out'] eqn:Hrest.
    intros Hne. by rewrite IHsteps.
Qed.

Lemma inspectTask_fuel_le (fuel fuel' : nat) name indent :
  (fuel ≤ fuel')%nat →
  (inspectTask' fuel name indent).2 ≠ OutOfFuel →
  inspectTask' fuel' name indent = inspectTask' fuel name indent.
Proof.
  intros Hle Hout. induction Hle as [|fuel' Hle IH]; [done|].
  rewrite inspectTask_more_fuel; [done|]. by rewrite IH.
Qed.

(** *** Depth first, at the place of the spawn step *)

(** The output of the loop around a spawn step: what the steps before it
    print, the line of the step, the whole inspection of the subtask, and
    only then what the steps after it print. *)
Lemma inspect_steps_spawn_at self indent pre step post sub :
  truthy (step_spawn step) = Some sub →
  (inspect_steps' self indent pre).2 = Finished →
  (inspect_steps' self indent (pre ++ step :: post)).1
  = (inspect_steps' self indent pre).1
    ++ writeln indent ("- " +:+ bold sub)
    :: (self sub (indent + 2)).1
    ++ match (self sub (indent + 2)).2 with
       | Finished => (inspect_steps' self indent post).1
       | _ => []
       end.
Proof.
  intros Hspawn. induction pre as [|step0 pre IH].
  - intros _. rewrite app_nil_l, inspect_steps_cons, Hspawn. simpl.
    destruct (self sub (indent + 2)) as [tr out].
    destruct out; simpl; [|by rewrite app_nil_r..].
    by destruct (inspect_steps' self indent post).
  - rewrite <- app_comm_cons, !inspect_steps_cons.
    destruct (truthy (step_spawn step0)) as [sub0|].
    + destruct (self sub0 (indent + 2)) as [tr0 out0].
      destruct out0; [|done..].
      destruct (inspect_steps' self indent pre) as [tr1 out1].
      destruct (inspect_steps' self indent (pre ++ step :: post))
        as [tr2 out2].
      simpl in *. intros Hfin. rewrite IH by done.
      by rewrite <- app_assoc.
    + destruct (inspect_steps' self indent pre) as [tr1 out1].
      destruct (inspect_steps' self indent (pre ++ step :: post))
        as [tr2 out2].
      simpl in *. intros Hfin. rewrite IH by done.
      by rewrite <- app_assoc.
Qed.

(** With one task on the way, the fuel of the recursive calls suffices. *)
Lemma inspect_unfold :
  acyclic manifest →
  ∀ name indent,
    inspect' name indent
    = match tryFindTask manifest name with
      | None => ([TryFindTask name], Threw (unresolved_message name))
      | Some task =>
        let '(tr, out) :=
          inspect_steps' inspect' indent (default [] (data_steps task)) in
        (TryFindTask name :: header underline indent task ++ tr, out)
      end.
Proof.
  intros Hacyclic name indent. unfold inspect at 1.
  rewrite inspectTask_succ.
  destruct (tryFindTask manifest name) as [task|] eqn:Hfind; [|done].
  rewrite (inspect_steps_ext (inspectTask' (size manifest)) inspect');
    [done|].
  intros step sub Hstep Hspawn. unfold inspect. symmetry.
  apply inspectTask_more_fuel.
  assert (name ∈ dom manifest) as Hname by (apply elem_of_dom; eauto).
  apply (inspectTask_fuel_seen Hacyclic _ _ _ {[name]}).
  - by apply singleton_subseteq_l.
  - intros v ->%elem_of_singleton. apply tc_once. by exists task, step.
  - rewrite <- size_dom. apply subset_size. split.
    + intros v [Hv _]%elem_of_difference. done.
    + intros Hsubset. apply Hsubset in Hname.
      apply elem_of_difference in Hname as [_ Hname].
      apply Hname. by apply elem_of_singleton.
Qed.

(** *** The program is the traversal *)

Abbreviation shown' := (shown manifest underline bold).
Abbreviation shown_steps' := (shown_steps manifest underline bold).

Lemma inspect_steps_shown self indent steps : ∀ tr out,
  (∀ sub tr' out', self sub (indent + 2) = (tr', out') → out' ≠ OutOfFuel →
     shown' sub (indent + 2) tr' out') →
  inspect_steps' self indent steps = (tr, out) →
  out ≠ OutOfFuel →
  shown_steps' indent steps tr out.
Proof.
  induction steps as [|step rest IH]; intros tr out Hself.
  { intros [= <- <-] _. constructor. }
  rewrite inspect_steps_cons.
  destruct (inspect_steps' self indent rest) as [tr' out'] eqn:Hrest.
  destruct (truthy (step_spawn step)) as [sub|] eqn:Hspawn.
  - destruct (self sub (indent + 2)) as [tr_sub out_sub] eqn:Hsub.
    destruct out_sub as [|msg|].
    + intros [= <- <-] Hout. eapply shown_spawn; [done| |by apply IH].
      by apply Hself.
    + intros [= <- <-] _. eapply shown_spawn_threw; [done|]. by apply Hself.
    + by intros [= <- <-].
  - destruct (truthy (step_exec step)) as [command|] eqn:Hexec.
    { intros [= <- <-] Hout. apply shown_exec; [done..|]. by apply IH. }
    destruct (truthy (step_builtin step)) as [b|] eqn:Hbuiltin.
    { intros [= <- <-] Hout. apply shown_builtin; [done..|]. by apply IH. }
    intros [= <- <-] Hout. apply shown_nothing; [done..|]. by apply IH.
Qed.

(** What the program does, when it ends, is what the traversal shows. *)
Lemma inspectTask_shown fuel : ∀ name indent tr out,
  inspectTask' fuel name indent = (tr, out) →
  out ≠ OutOfFuel →
  shown' name indent tr out.
Proof.
  induction fuel as [|fuel IH]; intros name indent tr out.
  { by intros [= <- <-]. }
  rewrite inspectTask_succ.
  destruct (tryFindTask manifest name) as [task|] eqn:Hfind.
  - destruct (inspect_steps' (inspectTask' fuel) indent
                (default [] (data_steps task))) as [tr' out'] eqn:Hsteps.
    intros [= <- <-] Hout. apply shown_task; [done|].
    eapply inspect_steps_shown; [|done..]. intros sub tr'' out''. apply IH.
  - intros [= <- <-] _. by apply shown_missing.
Qed.

(** What the traversal shows is what the program does with enough fuel. *)
Lemma shown_inspectTask name indent tr out :
  shown' name indent tr out →
  ∃ fuel, ∀ fuel', (fuel ≤ fuel')%nat →
    inspectTask' fuel' name indent = (tr, out).
Proof.
  revert name indent tr out.
  apply (shown_mut manifest underline bold
           (λ name indent tr out,
              ∃ fuel, ∀ fuel', (fuel ≤ fuel')%nat →
                inspectTask' fuel' name indent = (tr, out))
           (λ indent steps tr out,
              ∃ fuel, ∀ fuel', (fuel ≤ fuel')%nat →
                inspect_steps' (inspectTask' fuel') indent steps = (tr, out))).
  - intros name indent Hfind. exists 1. intros [|fuel'] Hle; [lia|].
    by rewrite inspectTask_succ, Hfind.
  - intros name indent task tr out Hfind _ [fuel Hsteps].
    exists (S fuel). intros [|fuel'] Hle; [lia|].
    rewrite inspectTask_succ, Hfind, Hsteps by lia. done.
  - intros indent. by exists 0.
  - intros indent step rest sub tr_sub tr out Hspawn _ [f1 Hsub] _ [f2 Hrest].
    exists (f1 `max` f2). intros fuel' Hle.
    rewrite inspect_steps_cons, Hspawn, Hsub, Hrest by lia. done.
  - intros indent step rest sub tr_sub msg Hspawn _ [f1 Hsub].
    exists f1. intros fuel' Hle.
    rewrite inspect_steps_cons, Hspawn, Hsub by lia. done.
  - intros indent step rest command tr out Hspawn Hexec _ [f Hrest].
    exists f. intros fuel' Hle.
    rewrite inspect_steps_cons, Hspawn, Hexec, Hrest by lia. done.
  - intros indent step rest b tr out Hspawn Hexec Hbuiltin _ [f Hrest].
    exists f. intros fuel' Hle.
    rewrite inspect_steps_cons, Hspawn, Hexec, Hbuiltin, Hrest by lia. done.
  - intros indent step rest tr out Hspawn Hexec Hbuiltin _ [f Hrest].
    exists f. intros fuel' Hle.
    rewrite inspect_steps_cons, Hspawn, Hexec, Hbuiltin, Hrest by lia.
    done.
Qed.

(** The traversal shows one thing only. *)
Lemma shown_unique name indent tr out tr' out' :
  shown' name indent tr out → shown' name indent tr' out' →
  tr' = tr ∧ out' = out.
Proof.
  intros [f Hf]%shown_inspectTask [f' Hf']%shown_inspectTask.
  specialize (Hf (f `max` f') ltac:(lia)).
  specialize (Hf' (f `max` f') ltac:(lia)).
  rewrite Hf in Hf'. by injection Hf' as <- <-.
Qed.

(** C7.  On a manifest whose spawn graph has no cycle, [inspectTask]
    terminates: with more fuel than the manifest has tasks it ends, always
    with the same events [tr] and the same end [out].  It is the depth-first
    traversal of the spawn graph: [tr] and [out] are what the traversal
    [shown] makes of the task, in which the whole traversal of a spawned
    subtask sits between the line of its spawn step and the steps after
    it, and they are the only events and end the traversal has.  And it
    only looks tasks up and prints: none of its events is a [runTask]. *)
Theorem inspection_terminates :
  acyclic manifest →
  ∀ name indent,
    ∃ tr out,
      (∀ fuel, size manifest < fuel →
         inspectTask' fuel name indent = (tr, out))
      ∧ out ≠ OutOfFuel
      ∧ shown' name indent tr out
      ∧ (∀ tr' out', shown' name indent tr' out' → tr' = tr ∧ out' = out)
      ∧ Forall (λ e, is_run e = false) tr
      ∧ (indent = 0 →
         taskCommandHandler manifest underline bold (S (size manifest)) name true
         = (tr, out)).
Proof.
  intros Hacyclic name indent.
  destruct (inspect' name indent) as [tr out] eqn:Hrun.
  assert (out ≠ OutOfFuel) as Hout.
  { pose proof (inspectTask_terminates Hacyclic (S (size manifest)) name indent)
      as Hterm.
    unfold inspect in Hrun. rewrite Hrun in Hterm. apply Hterm. lia. }
  assert (shown' name indent tr out) as Hshown
    by (by eapply inspectTask_shown).
  exists tr, out. split; [|split; [done|split; [done|split; [|split]]]].
  - intros fuel Hfuel. rewrite <- Hrun. unfold inspect.
    apply inspectTask_fuel_le; [lia|].
    unfold inspect in Hrun. by rewrite Hrun.
  - intros tr' out' Hshown'. by eapply shown_unique.
  - pose proof (inspectTask_no_run (S (size manifest)) name indent) as Hno.
    unfold inspect in Hrun. by rewrite Hrun in Hno.
  - intros ->. done.
Qed.

(** A ranking that goes down along every spawn edge rules cycles out. *)
Lemma ranked_acyclic (rank : string → nat) :
  (∀ a b, spawns' a b → rank b < rank a) → acyclic manifest.
Proof.
  intros Hrank.
  assert (∀ a b, tc spawns' a b → rank b < rank a) as Htc.
  { intros a b Hab. induction Hab as [a b Hab|a b c Hab Hbc IH].
    - by apply Hrank.
    - specialize (Hrank a b Hab). lia. }
  intros a Haa. specialize (Htc a a Haa). lia.
Qed.

End CliProperties.

(** The sample manifest: "build" spawns "sub", "sub" spawns nothing. *)
Lemma sample_manifest_acyclic : acyclic sample_manifest.
Proof.
  apply (ranked_acyclic _ (λ a, if decide (a = "build") then 1 else 0)).
  intros a b (task & step & Hfind & Hstep & Hspawn).
  unfold tryFindTask, sample_manifest in Hfind.
  apply lookup_insert_Some in Hfind as [[<- <-]|[Hne Hfind]].
  - simpl in Hstep.
    apply elem_of_cons in Hstep as [->|Hstep]; [discriminate Hspawn|].
    apply elem_of_cons in Hstep as [->|Hstep]; [|by apply elem_of_nil in Hstep].
    injection Hspawn as <-. vm_compute. lia.
  - apply lookup_insert_Some in Hfind as [[<- <-]|[Hne' Hfind]].
    + simpl in Hstep.
      apply elem_of_cons in Hstep as [->|Hstep]; [discriminate Hspawn|].
      by apply elem_of_nil in Hstep.
    + by rewrite lookup_empty in Hfind.
Qed.

(** On a manifest with a cycle the inspector does not terminate: no amount
    of fuel is enough. *)
Example looping_manifest_diverges (fuel indent : nat) :
  (inspectTask looping_manifest id id fuel "loop" indent).2 = OutOfFuel.
Proof.
  revert indent. induction fuel as [|fuel IH]; intros indent; [done|].
  rewrite inspectTask_succ.
  assert (tryFindTask looping_manifest "loop"
          = Some (data_task "loop" [spawn_step "loop" no_options])) as ->
    by reflexivity.
  change (default [] (data_steps (data_task "loop" [spawn_step "loop" no_options])))
    with [spawn_step "loop" no_options].
  rewrite inspect_steps_cons.
  change (truthy (step_spawn (spawn_step "loop" no_options)))
    with (Some "loop").
  cbv beta iota. specialize (IH (indent + 2)).
  destruct (inspectTask looping_manifest id id fuel "loop" (indent + 2))
    as [tr out].
  simpl in IH. by subst out.
Qed.

Example sample_manifest_inspected :
  inspect sample_manifest id id "build" 0
  = ([TryFindTask "build";
      ConsoleLog "- exec: echo step1";
      ConsoleLog "- sub";
      TryFindTask "sub";
      ConsoleLog "  - exec: echo step2"], Finished).
Proof. vm_compute. reflexivity. Qed.

Lemma inspection_terminates_witness :
  acyclic sample_manifest
  ∧ shown sample_manifest id id "build" 0
      [TryFindTask "build";
       ConsoleLog "- exec: echo step1";
       ConsoleLog "- sub";
       TryFindTask "sub";
       ConsoleLog "  - exec: echo step2"] Finished.
Proof.
  split; [exact sample_manifest_acyclic|].
  destruct (inspection_terminates sample_manifest id id
              sample_manifest_acyclic "build" 0)
    as (tr & out & Hfuel & _ & Hshown & _).
  assert (size sample_manifest < 3) as Hsize by (vm_compute; lia).
  specialize (Hfuel 3 Hsize).
  assert (inspectTask sample_manifest id id 3 "build" 0
          = ([TryFindTask "build";
              ConsoleLog "- exec: echo step1";
              ConsoleLog "- sub";
              TryFindTask "sub";
              ConsoleLog "  - exec: echo step2"], Finished)) as Heq
    by (vm_compute; reflexivity).
  rewrite Heq in Hfuel. injection Hfuel as <- <-. exact Hshown.
Defined.


(** * Further properties of [Task] *)

(** ** The deprecated [prepend] *)

Lemma assertUnlocked_reader this : reader (Task.assertUnlocked this).
Proof.
  intros σ. unfold Task.assertUnlocked, bind, get_task.
  destruct (tasks σ !! this) as [T|]; [|done]. simpl.
  by destruct (_locked T).
Qed.

(** X1.  [prepend] is [prependExec] under another name: in every store,
    for every receiver, both end the same way with the same store, be it
    the new step at index 0 or the locking error. *)
Theorem prepend_is_prependExec (this : loc) (shell : string)
    (options : TaskStepOptions) (σ : heap) :
  Task.prepend this shell options σ = Task.prependExec this shell options σ.
Proof.
  unfold Task.prepend. unfold bind at 1.
  pose proof (assertUnlocked_reader this σ) as Hread.
  destruct (Task.assertUnlocked this σ) as [[] σ1|e σ1] eqn:Hguard;
    simpl in Hread; subst σ1.
  - done.
  - unfold Task.prependExec. unfold bind at 1. by rewrite Hguard.
Qed.

(** ** Exceptions *)

Lemma throw_safe_bind_reader {A B} (c : M A) (k : A → M B) :
  reader c → (∀ a, throw_safe (k a)) → throw_safe (bind c k).
Proof.
  intros Hc Hk σ e σ'. unfold bind. specialize (Hc σ).
  destruct (c σ) as [a σ1|e1 σ1]; simpl in Hc; subst σ1.
  - apply Hk.
  - by intros [= _ <-].
Qed.

Lemma get_task_reader this : reader (get_task this).
Proof. intros σ. unfold get_task. by destruct (tasks σ !! this). Qed.

Lemma read_array_reader a : reader (read_array a).
Proof. intros σ. unfold read_array. by destruct (arrays σ !! a). Qed.

Lemma write_array_throw_safe a l : throw_safe (write_array a l).
Proof.
  intros σ e σ'. unfold write_array.
  destruct (arrays σ !! a); [done|]. by intros [= _ <-].
Qed.

Lemma object_set_throw_safe o k v : throw_safe (object_set o k v).
Proof.
  intros σ e σ'. unfold object_set.
  destruct (objects σ !! o); [done|]. by intros [= _ <-].
Qed.

Lemma array_push_throw_safe a x : throw_safe (array_push a x).
Proof.
  apply throw_safe_bind_reader; [apply read_array_reader|].
  intros l. apply write_array_throw_safe.
Qed.

Lemma array_unshift_throw_safe a x : throw_safe (array_unshift a x).
Proof.
  apply throw_safe_bind_reader; [apply read_array_reader|].
  intros l. apply write_array_throw_safe.
Qed.

(** A member made of the guard, lookups and one write. *)
Lemma guarded_throw_safe {A} this (k : TaskObj → M A) :
  (∀ T, throw_safe (k T)) →
  throw_safe (Task.assertUnlocked this ;; let* T := get_task this in k T).
Proof.
  intros Hk.
  apply throw_safe_bind_reader; [apply assertUnlocked_reader|]. intros _.
  apply throw_safe_bind_reader; [apply get_task_reader|]. done.
Qed.

(** [reset] on an unlocked task whose step array is there. *)
Lemma reset_result σ t T l command options :
  tasks σ !! t = Some T →
  arrays σ !! _steps T = Some l →
  _locked T = false →
  Task.reset t command options σ
  = Return tt
      (with_arrays σ
         (<[_steps T := match truthy command with
                        | Some c => [exec_step c options]
                        | None => []
                        end]> (arrays σ))).
Proof.
  intros Ht Ha Hl.
  unfold Task.reset, bind at 1.
  rewrite (assertUnlocked_unlocked σ t T) by done.
  unfold bind at 1, get_task. rewrite Ht.
  unfold bind at 1, read_array. rewrite Ha.
  unfold bind at 1. erewrite shift_while_at by done.
  rewrite drop_all.
  destruct (truthy command) as [c|]; [|done].
  unfold Task.exec.
  erewrite (append_member _ t T); [|done..|apply lookup_insert_eq].
  rewrite with_arrays_twice. simpl. by rewrite insert_insert_eq.
Qed.

Lemma reset_throw_safe this command options :
  throw_safe (Task.reset this command options).
Proof.
  intros σ e σ' Hthrow.
  destruct (tasks σ !! this) as [T|] eqn:Ht.
  2:{ revert Hthrow. unfold Task.reset, bind, Task.assertUnlocked, bind, get_task.
      rewrite Ht. simpl. by intros [= _ <-]. }
  destruct (_locked T) eqn:Hl.
  { unfold Task.reset in Hthrow.
    rewrite (guarded_locked σ this T Ht) in Hthrow by done.
    by injection Hthrow as _ <-. }
  destruct (arrays σ !! _steps T) as [l|] eqn:Ha.
  { by rewrite (reset_result σ this T l) in Hthrow. }
  revert Hthrow. unfold Task.reset, bind at 1.
  rewrite (assertUnlocked_unlocked σ this T) by done.
  unfold bind, get_task, read_array. rewrite Ht. simpl. rewrite Ha.
  by intros [= _ <-].
Qed.

(** X2.  A member of [Task] that throws has changed nothing: whatever the
    call, the receiver and the store, the store at the exception is the
    store before the call. *)
Theorem invoke_throw_unchanged (this : loc) (c : call) (σ σ' : heap) (e : exn) :
  invoke this c σ = Throw e σ' → σ' = σ.
Proof.
  revert σ e σ'. change (throw_safe (invoke this c)).
  destruct c; simpl.
  - apply throw_safe_bind_reader; [apply get_task_reader|].
    by intros T σ e σ'.
  - apply throw_safe_bind_reader; [|by intros d σ e σ'].
    intros σ. unfold Task.description, bind, get_task.
    by destruct (tasks σ !! this).
  - apply throw_safe_bind_reader; [apply get_task_reader|].
    by intros T σ e σ'.
  - apply reset_throw_safe.
  - apply guarded_throw_safe. intros T. apply array_push_throw_safe.
  - apply guarded_throw_safe. intros T. apply array_push_throw_safe.
  - apply guarded_throw_safe. intros T. apply array_push_throw_safe.
  - apply throw_safe_bind_reader; [apply assertUnlocked_reader|]. intros _.
    apply guarded_throw_safe. intros T. apply array_unshift_throw_safe.
  - apply guarded_throw_safe. intros T.
    apply throw_safe_bind_reader; [apply get_task_reader|].
    intros Sub. apply array_push_throw_safe.
  - apply guarded_throw_safe. intros T. apply array_unshift_throw_safe.
  - apply guarded_throw_safe. intros T.
    apply throw_safe_bind_reader; [apply get_task_reader|].
    intros Sub. apply array_unshift_throw_safe.
  - apply guarded_throw_safe. intros T. apply array_unshift_throw_safe.
  - apply guarded_throw_safe. intros T. apply object_set_throw_safe.
  - intros σ e σ'. unfold Task.steps, bind, get_task, read_array.
    destruct (tasks σ !! this) as [T|]; simpl; [|by intros [= _ <-]].
    destruct (arrays σ !! _steps T); simpl; [done|by intros [= _ <-]].
  - intros σ e σ'.
    unfold Task._renderSpec, Task.description, bind, get_task.
    destruct (tasks σ !! this) as [T|] eqn:Ht; simpl; [|by intros [= _ <-]].
    by rewrite Ht.
Qed.

Lemma invoke_throw_unchanged_witness :
  ∃ e σ',
    invoke 1%positive (Exec "tsc" no_options) (final (Task.lock 1%positive build_heap))
    = Throw e σ'
    ∧ σ' = final (Task.lock 1%positive build_heap).
Proof.
  do 2 eexists. split; [vm_compute; reflexivity|].
  apply (invoke_throw_unchanged 1%positive (Exec "tsc" no_options)
           (final (Task.lock 1%positive build_heap)) _
           (Error (Task.locked_message "build"))).
  vm_compute. reflexivity.
Defined.

(** ** The footprint of a call *)

Section Footprint.

Context (σ : heap) (t : loc) (T : TaskObj).
Hypothesis Ht : tasks σ !! t = Some T.

(** A guarded member that writes the step array. *)
Lemma effect_guarded_write (f : list TaskStep → list TaskStep) :
  effect σ t T
    (final ((Task.assertUnlocked t ;;
             let* T' := get_task t in
             let* l := read_array (_steps T') in
             write_array (_steps T') (f l)) σ)).
Proof.
  unfold bind at 1. destruct (_locked T) eqn:Hl.
  { rewrite (assertUnlocked_locked σ t T) by done. constructor. }
  rewrite (assertUnlocked_unlocked σ t T) by done.
  unfold bind, get_task, read_array, write_array. rewrite Ht. simpl.
  destruct (arrays σ !! _steps T) as [l|] eqn:Ha; simpl; [|constructor].
  rewrite Ha. simpl. apply effect_steps. eauto.
Qed.

(** The same with a second [Task] looked up before the write. *)
Lemma effect_guarded_spawn sub (f : TaskObj → list TaskStep → list TaskStep) :
  effect σ t T
    (final ((Task.assertUnlocked t ;;
             let* T' := get_task t in
             let* Sub := get_task sub in
             let* l := read_array (_steps T') in
             write_array (_steps T') (f Sub l)) σ)).
Proof.
  unfold bind at 1. destruct (_locked T) eqn:Hl.
  { rewrite (assertUnlocked_locked σ t T) by done. constructor. }
  rewrite (assertUnlocked_unlocked σ t T) by done.
  unfold bind, get_task, read_array, write_array. rewrite Ht. simpl.
  destruct (tasks σ !! sub) as [Sub|]; simpl; [|constructor].
  destruct (arrays σ !! _steps T) as [l|] eqn:Ha; simpl; [|constructor].
  rewrite Ha. simpl. apply effect_steps. eauto.
Qed.

Lemma effect_reset command options :
  effect σ t T (final (Task.reset t command options σ)).
Proof.
  destruct (_locked T) eqn:Hl.
  { unfold Task.reset. rewrite (guarded_locked σ t T) by done. constructor. }
  destruct (arrays σ !! _steps T) as [l|] eqn:Ha.
  { rewrite (reset_result σ t T l) by done. apply effect_steps. eauto. }
  unfold Task.reset, bind at 1.
  rewrite (assertUnlocked_unlocked σ t T) by done.
  unfold bind, get_task, read_array. rewrite Ht. simpl. rewrite Ha.
  constructor.
Qed.

Lemma effect_invoke c : effect σ t T (final (invoke t c σ)).
Proof.
  destruct c; simpl.
  - unfold Task.lock, bind, get_task, put_task. rewrite Ht. simpl.
    apply effect_fields. by repeat split.
  - unfold Task.description, bind, get_task. rewrite Ht. constructor.
  - unfold Task.set_description, bind, get_task, put_task. rewrite Ht. simpl.
    apply effect_fields. by repeat split.
  - apply effect_reset.
  - apply (effect_guarded_write (λ l, l ++ [exec_step command options])).
  - apply (effect_guarded_write (λ l, l ++ [builtin_step name0])).
  - apply (effect_guarded_write (λ l, l ++ [say_step message options])).
  - unfold Task.prepend, bind at 1. destruct (_locked T) eqn:Hl.
    { rewrite (assertUnlocked_locked σ t T) by done. constructor. }
    rewrite (assertUnlocked_unlocked σ t T) by done.
    apply (effect_guarded_write (λ l, exec_step shell options :: l)).
  - apply (effect_guarded_spawn subtask
             (λ Sub l, l ++ [spawn_step (name Sub) options])).
  - apply (effect_guarded_write (λ l, exec_step shell options :: l)).
  - apply (effect_guarded_spawn subtask
             (λ Sub l, spawn_step (name Sub) options :: l)).
  - apply (effect_guarded_write (λ l, say_step message options :: l)).
  - unfold Task.env, bind at 1. destruct (_locked T) eqn:Hl.
    { rewrite (assertUnlocked_locked σ t T) by done. constructor. }
    rewrite (assertUnlocked_unlocked σ t T) by done.
    unfold bind, get_task, object_set. rewrite Ht. simpl.
    destruct (objects σ !! _env T) as [m|] eqn:He; simpl; [|constructor].
    apply effect_env. eauto.
  - unfold Task.steps, bind, get_task, read_array. rewrite Ht. simpl.
    destruct (arrays σ !! _steps T) as [l|]; simpl; constructor.
  - unfold Task._renderSpec, Task.description, bind, get_task.
    rewrite Ht. simpl. rewrite Ht. constructor.
Qed.

End Footprint.

(** A call on a reference that is no task throws at once. *)
Lemma invoke_no_task σ t c :
  tasks σ !! t = None → invoke t c σ = Throw TypeError σ.
Proof.
  intros Ht. destruct c; simpl;
    unfold Task.lock, Task.description, Task.set_description, Task.reset,
      Task.exec, Task.builtin, Task.say, Task.prepend, Task.spawn,
      Task.prependExec, Task.prependSpawn, Task.prependSay, Task.env,
      Task.steps, Task._renderSpec, Task.description, Task.assertUnlocked,
      bind, get_task;
    by rewrite Ht.
Qed.

Lemma fresh_lookup {V} (m : gmap loc V) : m !! fresh (dom m) = None.
Proof. apply not_elem_of_dom, is_fresh. Qed.

Lemma lookup_insert_fresh {V} (m : gmap loc V) (x : V) (a : loc) :
  is_Some (m !! a) → <[fresh (dom m) := x]> m !! a = m !! a.
Proof.
  intros Ha. apply lookup_insert_ne. intros <-.
  rewrite fresh_lookup in Ha. by destruct Ha.
Qed.

(** What an effect leaves alone. *)
Lemma effect_tasks_other σ t T σ' t' :
  effect σ t T σ' → t' ≠ t → tasks σ' !! t' = tasks σ !! t'.
Proof.
  intros [|l Hl|l|m Hm|T' HT'] Hne; simpl; try done.
  by rewrite lookup_insert_ne.
Qed.

Lemma effect_arrays_other σ t T σ' a :
  effect σ t T σ' → is_Some (arrays σ !! a) → a ≠ _steps T →
  arrays σ' !! a = arrays σ !! a.
Proof.
  intros [|l Hl|l|m Hm|T' HT'] Ha Hne; simpl; try done.
  - by rewrite lookup_insert_ne.
  - by apply lookup_insert_fresh.
Qed.

Lemma effect_objects_other σ t T σ' o :
  effect σ t T σ' → o ≠ _env T → objects σ' !! o = objects σ !! o.
Proof.
  intros [|l Hl|l|m Hm|T' HT'] Hne; simpl; try done.
  by rewrite lookup_insert_ne.
Qed.

Lemma effect_self σ t T σ' :
  tasks σ !! t = Some T → effect σ t T σ' →
  ∃ T', tasks σ' !! t = Some T' ∧ same_identity T T'.
Proof.
  intros Ht [|l Hl|l|m Hm|T' HT']; simpl;
    eauto using same_identity_refl.
  rewrite lookup_insert_eq. eauto.
Qed.

(** X3.  The footprint of a member call on [t]: it leaves every other
    task instance as it is, every allocated array other than the step array
    of [t], and every object other than the environment object of [t]; and
    [t] itself keeps its [readonly] fields, its step array and environment
    references, and a lock it has. *)
Theorem invoke_frame (σ : heap) (t : loc) (c : call) :
  let σ' := final (invoke t c σ) in
  (∀ t', t' ≠ t → tasks σ' !! t' = tasks σ !! t')
  ∧ (∀ a, is_Some (arrays σ !! a) →
          (∀ T, tasks σ !! t = Some T → a ≠ _steps T) →
          arrays σ' !! a = arrays σ !! a)
  ∧ (∀ o, (∀ T, tasks σ !! t = Some T → o ≠ _env T) →
          objects σ' !! o = objects σ !! o)
  ∧ (∀ T, tasks σ !! t = Some T →
          ∃ T', tasks σ' !! t = Some T' ∧ same_identity T T').
Proof.
  intros σ'. subst σ'.
  destruct (tasks σ !! t) as [T|] eqn:Ht.
  2:{ rewrite invoke_no_task by done. simpl. by repeat split. }
  pose proof (effect_invoke σ t T Ht c) as Heff.
  split; [|split; [|split]].
  - intros t' Hne. by eapply effect_tasks_other.
  - intros a Ha Hne. eapply effect_arrays_other; [done..|]. by apply Hne.
  - intros o Hne. eapply effect_objects_other; [done|]. by apply Hne.
  - intros T0 [= <-]. by eapply effect_self.
Qed.

(** X4.  When a call throws.  On a task whose step array and environment
    are in the store, and with an existing task as [subtask] argument where
    there is one, a call throws exactly when the task is locked and the
    member is one of the guarded ones: an unlocked task never throws, and
    [lock], the description getter and setter, the [steps] getter and
    [_renderSpec] never throw, locked or not. *)
Theorem throws_iff_locked (σ : heap) (t : loc) (T : TaskObj)
    (l : list TaskStep) (e : gmap string string) (c : call) :
  task_at σ t T l e →
  (∀ sub, subtask_of c = Some sub → is_Some (tasks σ !! sub)) →
  throws (invoke t c σ) = _locked T && mutator c.
Proof.
  intros Hat Hsub. pose proof Hat as (Ht & Ha & He).
  assert (mutator c = false → throws (invoke t c σ) = false) as Hfree.
  { destruct c; try discriminate; intros _; unfold invoke.
    - unfold Task.lock, bind, get_task. by rewrite Ht.
    - unfold Task.description, bind, get_task. by rewrite Ht.
    - unfold Task.set_description, bind, get_task. by rewrite Ht.
    - unfold bind at 1. by rewrite (steps_at σ t T l e).
    - unfold bind at 1. by rewrite (renderSpec_at σ t T). }
  destruct (mutator c) eqn:Hc; [|rewrite Hfree by done; by destruct (_locked T)].
  destruct (_locked T) eqn:Hl; simpl.
  { by rewrite (mutator_locked σ t T c). }
  assert (∀ step, appended σ c = Some step → throws (invoke t c σ) = false)
    as Happ by (intros step Hstep; by rewrite (invoke_append σ t T l e c step)).
  assert (∀ step, prepended σ c = Some step → throws (invoke t c σ) = false)
    as Hpre by (intros step Hstep; by rewrite (invoke_prepend σ t T l e c step)).
  destruct c; try discriminate Hc; try (by eapply Happ); try (by eapply Hpre).
  - simpl. by rewrite (reset_at σ t T l e).
  - destruct (Hsub subtask) as [Sub HSub]; [done|].
    eapply Happ. simpl. by rewrite HSub.
  - destruct (Hsub subtask) as [Sub HSub]; [done|].
    eapply Hpre. simpl. by rewrite HSub.
  - simpl. by rewrite (env_at σ t T l e).
Qed.

Lemma throws_iff_locked_witness :
  throws (invoke 1%positive (Spawn 1%positive no_options) compile_heap)
  = _locked compile_fields && mutator (Spawn 1%positive no_options).
Proof.
  apply (throws_iff_locked compile_heap 1%positive compile_fields
           [exec_step "tsc" no_options] ∅).
  - repeat split.
  - intros sub [= <-]. by exists compile_fields.
Defined.

(** ** The constructor *)

Lemma constructor_spec n props σ :
  Task.constructor n props σ
  = Return (fresh (dom (tasks σ)))
      {| arrays := <[fresh (dom (arrays σ)) := initial_steps props]> (arrays σ);
         objects := match props_env props with
                    | Some _ => objects σ
                    | None => <[fresh (dom (objects σ)) := ∅]> (objects σ)
                    end;
         tasks := <[fresh (dom (tasks σ)) := new_fields n props σ]> (tasks σ);
         strings := strings σ |}.
Proof.
  unfold Task.constructor, initial_steps, new_fields.
  destruct (props_env props) as [e|]; unfold bind at 1; simpl;
    unfold bind at 1; simpl; unfold bind at 1; simpl.
  - destruct (truthy (props_exec props)) as [c|]; [|done].
    unfold bind, Task.exec.
    erewrite append_member;
      [|apply lookup_insert_eq|done|simpl; apply lookup_insert_eq].
    unfold with_arrays. simpl. by rewrite insert_insert_eq.
  - destruct (truthy (props_exec props)) as [c|]; [|done].
    unfold bind, Task.exec.
    erewrite append_member;
      [|apply lookup_insert_eq|done|simpl; apply lookup_insert_eq].
    unfold with_arrays. simpl. by rewrite insert_insert_eq.
Qed.

(** X5.  The constructor never fails and never disturbs what is there: it
    returns a reference that was no task before, to an unlocked task with a
    step array that was no array before; the steps are the [exec] property
    as single step, or none when [exec] is missing or the empty string; and
    every other task, every array and every object of the store is as it
    was. *)
Theorem constructor_fresh (n : string) (props : TaskOptions) (σ : heap) :
  ∃ t σ' T,
    Task.constructor n props σ = Return t σ'
    ∧ tasks σ !! t = None
    ∧ tasks σ' !! t = Some T
    ∧ name T = n
    ∧ _locked T = false
    ∧ arrays σ !! _steps T = None
    ∧ steps_of σ' t
      = Some match props_exec props with
             | Some (String ch c) => [exec_step (String ch c) no_options]
             | _ => []
             end
    ∧ (∀ t', t' ≠ t → tasks σ' !! t' = tasks σ !! t')
    ∧ (∀ a, is_Some (arrays σ !! a) → arrays σ' !! a = arrays σ !! a)
    ∧ (∀ o, is_Some (objects σ !! o) → objects σ' !! o = objects σ !! o).
Proof.
  do 2 eexists. exists (new_fields n props σ).
  split; [apply constructor_spec|]. simpl.
  split; [apply fresh_lookup|].
  split; [apply lookup_insert_eq|].
  split; [done|]. split; [done|].
  split; [apply fresh_lookup|].
  split.
  { unfold steps_of. simpl. rewrite lookup_insert_eq. simpl.
    rewrite lookup_insert_eq. unfold initial_steps.
    by destruct (props_exec props) as [[|ch c]|]. }
  split; [intros t' Hne; by rewrite lookup_insert_ne|].
  split; [intros a Ha; by apply lookup_insert_fresh|].
  intros o Ho. destruct (props_env props); [done|].
  by apply lookup_insert_fresh.
Qed.

(** X6.  The constructor keeps the caller's [props.env] object: two tasks
    constructed with the same object share their environment, so for a name
    [k] other than ["__proto__"], [t1.env(k, v)] shows in the environment of
    [t2]. *)
Theorem props_env_shared (σ : heap) (o : loc) (m : gmap string string)
    (n1 n2 : string) (p1 p2 : TaskOptions) (k v : string) :
  objects σ !! o = Some m →
  props_env p1 = Some o →
  props_env p2 = Some o →
  k ≠ "__proto__" →
  ∃ t1 σ1 t2 σ2 σ3,
    Task.constructor n1 p1 σ = Return t1 σ1
    ∧ Task.constructor n2 p2 σ1 = Return t2 σ2
    ∧ t1 ≠ t2
    ∧ env_of σ2 t1 = Some m ∧ env_of σ2 t2 = Some m
    ∧ Task.env t1 k v σ2 = Return tt σ3
    ∧ env_of σ3 t1 = Some (<[k := v]> m)
    ∧ env_of σ3 t2 = Some (<[k := v]> m).
Proof.
  intros Ho Hp1 Hp2 Hk.
  set (t1 := fresh (dom (tasks σ))).
  set (T1 := new_fields n1 p1 σ).
  pose proof (constructor_spec n1 p1 σ) as Hnew1.
  destruct (Task.constructor n1 p1 σ) as [t1' σ1|] eqn:H1; [|done].
  injection Hnew1 as -> Hσ1.
  pose proof (constructor_spec n2 p2 σ1) as Hnew2.
  destruct (Task.constructor n2 p2 σ1) as [t2' σ2|] eqn:H2; [|done].
  injection Hnew2 as -> Hσ2.
  set (t2 := fresh (dom (tasks σ1))).
  set (T2 := new_fields n2 p2 σ1).
  assert (tasks σ1 !! t1 = Some T1) as Ht1
    by (rewrite Hσ1; apply lookup_insert_eq).
  assert (t1 ≠ t2) as Hne.
  { intros Heq. pose proof (fresh_lookup (tasks σ1)) as Hfresh.
    fold t2 in Hfresh. rewrite <- Heq, Ht1 in Hfresh. done. }
  assert (objects σ2 = objects σ) as Hobj.
  { rewrite Hσ2. simpl. rewrite Hp2, Hσ1. simpl. by rewrite Hp1. }
  assert (_env T1 = o) as He1 by (unfold T1, new_fields; simpl; by rewrite Hp1).
  assert (_env T2 = o) as He2 by (unfold T2, new_fields; simpl; by rewrite Hp2).
  assert (tasks σ2 !! t1 = Some T1) as Ht1'.
  { rewrite Hσ2. simpl. by rewrite lookup_insert_ne. }
  assert (tasks σ2 !! t2 = Some T2) as Ht2'
    by (rewrite Hσ2; apply lookup_insert_eq).
  assert (is_Some (arrays σ2 !! _steps T1)) as [l1 Hl1].
  { rewrite Hσ2. simpl. rewrite lookup_insert_fresh.
    - rewrite Hσ1. simpl. rewrite lookup_insert_eq. eauto.
    - rewrite Hσ1. simpl. rewrite lookup_insert_eq. eauto. }
  assert (objects σ2 !! _env T1 = Some m) as Hm1 by (by rewrite Hobj, He1).
  assert (objects σ2 !! _env T2 = Some m) as Hm2 by (by rewrite Hobj, He2).
  assert (task_at σ2 t1 T1 l1 m) as Hat1 by done.
  exists t1, σ1, t2, σ2. eexists.
  split; [done|]. split; [done|]. split; [done|].
  split. { unfold env_of. by rewrite Ht1'. }
  split. { unfold env_of. by rewrite Ht2'. }
  split; [by apply (env_at σ2 t1 T1 l1 m)|].
  unfold env_of. cbn [tasks objects with_objects]. rewrite Ht1', Ht2'.
  cbn [mbind option_bind]. rewrite He2, <- He1.
  rewrite <- (set_property_ordinary m k v Hk).
  split; apply lookup_insert_eq.
Qed.

Lemma props_env_shared_witness :
  let p := {| props_description := None; props_env := Some 1%positive;
              props_condition := None; props_cwd := None;
              props_requiredEnv := None; props_exec := None |} in
  ∃ t1 σ1 t2 σ2 σ3,
    Task.constructor "test" p build_heap = Return t1 σ1
    ∧ Task.constructor "watch" p σ1 = Return t2 σ2
    ∧ t1 ≠ t2
    ∧ env_of σ2 t1 = Some ∅ ∧ env_of σ2 t2 = Some ∅
    ∧ Task.env t1 "CI" "1" σ2 = Return tt σ3
    ∧ env_of σ3 t1 = Some (<["CI" := "1"]> ∅)
    ∧ env_of σ3 t2 = Some (<["CI" := "1"]> ∅).
Proof.
  intros p.
  apply (props_env_shared build_heap 1%positive ∅ "test" "watch" p p "CI" "1");
    done.
Defined.

(** ** Step arrays are not shared *)






(** ** [reset] works in place *)

(** X8.  [reset] empties the step array itself, it does not replace it: a
    spec rendered before the reset reads the steps after the reset, while an
    array obtained from the [steps] getter before the reset still holds the
    old steps. *)
Theorem reset_in_place (σ : heap) (t : loc) (T : TaskObj)
    (l : list TaskStep) (e : gmap string string)
    (command : option string) (options : TaskStepOptions) :
  task_at σ t T l e →
  _locked T = false →
  ∃ s a σ1 σ2,
    Task._renderSpec t σ = Return s σ
    ∧ Task.steps t σ = Return a σ1
    ∧ Task.reset t command options σ1 = Return tt σ2
    ∧ spec_steps_in σ2 s
      = Some match truthy command with
             | Some c => [exec_step c options]
             | None => []
             end
    ∧ spec_steps_in σ2 s = steps_of σ2 t
    ∧ arrays σ2 !! a = Some l.
Proof.
  intros Hat Hl. pose proof Hat as (Ht & Ha & He).
  set (a := fresh (dom (arrays σ))).
  assert (a ≠ _steps T) as Hne.
  { intros Heq. pose proof (fresh_lookup (arrays σ)) as Hfresh.
    fold a in Hfresh. rewrite Heq, Ha in Hfresh. done. }
  pose proof (task_at_other_written _ _ _ _ _ a l Hat Hne) as Hat1.
  do 4 eexists.
  split; [by apply renderSpec_at|].
  split; [by eapply steps_at|].
  split; [by eapply reset_at|].
  unfold spec_steps_in, steps_of. simpl. rewrite Ht. simpl.
  rewrite lookup_insert_eq. split; [done|]. split; [done|].
  rewrite lookup_insert_ne by done. apply lookup_insert_eq.
Qed.

Lemma reset_in_place_witness :
  ∃ s a σ1 σ2,
    Task._renderSpec 1%positive compile_heap = Return s compile_heap
    ∧ Task.steps 1%positive compile_heap = Return a σ1
    ∧ Task.reset 1%positive (Some "jsii") no_options σ1 = Return tt σ2
    ∧ spec_steps_in σ2 s = Some [exec_step "jsii" no_options]
    ∧ spec_steps_in σ2 s = steps_of σ2 1%positive
    ∧ arrays σ2 !! a = Some [exec_step "tsc" no_options].
Proof.
  apply (reset_in_place compile_heap 1%positive compile_fields
           [exec_step "tsc" no_options] ∅ (Some "jsii") no_options).
  - repeat split.
  - reflexivity.
Defined.


(** ** The rendered spec of a constructed task *)

Lemma effect_strings σ t T σ' : effect σ t T σ' → strings σ' = strings σ.
Proof. by intros [|l Hl|l|m Hm|T' HT']. Qed.

(** Only the caller's own writes change an array of names. *)
Lemma strings_perform a σ r :
  (∀ f, a ≠ StringsWrite r f) →
  strings (perform a σ) !! r = strings σ !! r.
Proof.
  intros Ha. destruct a as [n props|t c|a f|o k v|r' f]; simpl.
  - by rewrite constructor_spec.
  - destruct (tasks σ !! t) as [T|] eqn:Ht.
    + by rewrite (effect_strings _ _ _ _ (effect_invoke σ t T Ht c)).
    + by rewrite invoke_no_task.
  - unfold mutate_array, bind, read_array, write_array.
    destruct (arrays σ !! a); simpl; [|done]. by destruct (arrays σ !! a).
  - unfold object_set. by destruct (objects σ !! o).
  - unfold mutate_strings. destruct (strings σ !! r'); simpl; [|done].
    apply lookup_insert_ne. intros ->. by apply (Ha f).
Qed.

Lemma strings_run prog r : ∀ σ,
  (∀ f, StringsWrite r f ∉ prog) →
  strings (run prog σ) !! r = strings σ !! r.
Proof.
  induction prog as [|a prog IH]; intros σ Hprog; [done|].
  simpl. rewrite IH.
  - apply strings_perform. intros f ->. apply (Hprog f). left.
  - intros f Hin. apply (Hprog f). by right.
Qed.

(** C4, as stated, fails in two places.  After
    [new Task("release", { description: "Release", requiredEnv: names, ... })]
    the assignment [description = "Compile"] changes the description of the
    rendered spec, and [names.push("GITHUB_TOKEN")] by the caller changes
    its [requiredEnv]: neither equals the value given at construction. *)
Lemma renderSpec_counterexample :
  ∃ σ1 σ2 σ3 s,
    Task.constructor "release" release_props names_heap = Return 1%positive σ1
    ∧ Task.set_description 1%positive (Some "Compile") σ1 = Return tt σ2
    ∧ mutate_strings 1%positive (λ l, l ++ ["GITHUB_TOKEN"]) σ2 = Return tt σ3
    ∧ Task._renderSpec 1%positive σ3 = Return s σ3
    ∧ spec_description s = Some "Compile"
    ∧ spec_description s ≠ props_description release_props
    ∧ spec_requiredEnv_in σ3 s = Some ["NPM_TOKEN"; "GITHUB_TOKEN"]
    ∧ spec_requiredEnv_in σ3 s ≠ strings names_heap !! 1%positive.
Proof.
  do 4 eexists. split; [vm_compute; reflexivity|].
  split; [vm_compute; reflexivity|].
  split; [vm_compute; reflexivity|].
  split; [vm_compute; reflexivity|].
  split; [reflexivity|]. split; [discriminate|].
  split; [reflexivity|]. intros H. vm_compute in H. discriminate H.
Qed.

(** C4, amended.  For a task constructed as [new Task(n, props)], and
    whatever client code has run since, [_renderSpec()] returns a record of
    the fields name, description, env, requiredEnv, steps, condition and
    cwd in which [name] is [n]; [condition] and [cwd] are the values of
    [props]; [steps] and [env] are the step array and the environment
    object of the task; [requiredEnv] is the array of [props] itself, which
    holds the names it held at construction as long as the caller has not
    changed that array; and [description] is the current description, i.e.
    what the getter returns: the value of [props] as long as the
    description setter has not been used on the task. *)
Theorem renderSpec_fields (σ0 : heap) (n : string) (props : TaskOptions)
    (t : loc) (σ1 : heap) (prog : list action) :
  Task.constructor n props σ0 = Return t σ1 →
  let σ := run prog σ1 in
  ∃ s T,
    Task._renderSpec t σ = Return s σ
    ∧ tasks σ !! t = Some T
    ∧ spec_name s = n
    ∧ spec_requiredEnv s = props_requiredEnv props
    ∧ spec_condition s = props_condition props
    ∧ spec_cwd s = props_cwd props
    ∧ spec_steps s = _steps T
    ∧ spec_steps_in σ s = steps_of σ t
    ∧ spec_env s = _env T
    ∧ spec_env_in σ s = env_of σ t
    ∧ Task.description t σ = Return (spec_description s) σ
    ∧ ((∀ d, Call t (SetDescription d) ∉ prog) →
       spec_description s = props_description props)
    ∧ ((∀ r f, props_requiredEnv props = Some r → StringsWrite r f ∉ prog) →
       spec_requiredEnv_in σ s = r ← props_requiredEnv props; strings σ0 !! r).
Proof.
  intros Hnew σ.
  destruct (constructor_at _ _ _ _ _ Hnew)
    as (T1 & Ht1 & Hn & Hc & Hw & Hr & Hd & _).
  destruct (proj1 (identity_run prog σ1) t T1 Ht1) as (T & Ht & Hid).
  destruct Hid as (Hn' & Hc' & _ & _ & Hw' & Hr' & _).
  fold σ in Ht.
  eexists. exists T. split; [by apply renderSpec_at|].
  split; [done|]. simpl.
  split; [congruence|]. split; [congruence|]. split; [congruence|].
  split; [congruence|]. split; [done|].
  split. { unfold spec_steps_in, steps_of. simpl. by rewrite Ht. }
  split; [done|].
  split. { unfold spec_env_in, env_of. simpl. by rewrite Ht. }
  split. { unfold Task.description, bind, get_task. by rewrite Ht. }
  split.
  - intros Hprog.
    destruct (proj1 (description_run t prog σ1 Hprog) t T1 Ht1)
      as (T' & Ht' & Hkeep).
    fold σ in Ht'. rewrite Ht in Ht'. injection Ht' as <-.
    rewrite Hkeep by done. done.
  - intros Hprog. unfold spec_requiredEnv_in. simpl. rewrite Hr', Hr.
    destruct (props_requiredEnv props) as [r|]; [|done]. simpl.
    unfold σ. rewrite strings_run by (intros f; by apply Hprog).
    rewrite constructor_spec in Hnew. by injection Hnew as _ <-.
Qed.

Lemma renderSpec_fields_witness :
  let prog := [Call 1%positive (Exec "git push" no_options);
               Call 1%positive (Env "NPM_CONFIG_PROVENANCE" "true")] in
  let σ := run prog (final (Task.constructor "release" release_props names_heap)) in
  ∃ s T,
    Task._renderSpec 1%positive σ = Return s σ
    ∧ tasks σ !! 1%positive = Some T
    ∧ spec_name s = "release"
    ∧ spec_requiredEnv s = Some 1%positive
    ∧ spec_condition s = Some "test -d dist"
    ∧ spec_cwd s = Some "dist"
    ∧ spec_steps s = _steps T
    ∧ spec_steps_in σ s = steps_of σ 1%positive
    ∧ spec_env s = _env T
    ∧ spec_env_in σ s = env_of σ 1%positive
    ∧ Task.description 1%positive σ = Return (spec_description s) σ
    ∧ ((∀ d, Call 1%positive (SetDescription d) ∉ prog) →
       spec_description s = Some "Release")
    ∧ ((∀ r f, Some 1%positive = Some r → StringsWrite r f ∉ prog) →
       spec_requiredEnv_in σ s = Some ["NPM_TOKEN"]).
Proof.
  intros prog σ.
  apply (renderSpec_fields names_heap "release" release_props 1%positive
           (final (Task.constructor "release" release_props names_heap)) prog).
  vm_compute. reflexivity.
Defined.


(** ** [spawn] and [prependSpawn] *)






(** * Further properties of the task inspector *)

Section InspectorProperties.

Context (manifest : gmap string TaskSpecData) (underline bold : string → string).

(** ** Errors *)

(** The loop throws only what a recursive call throws, and stops there. *)
Lemma inspect_steps_threw self indent steps msg :
  (inspect_steps bold self indent steps).2 = Threw msg →
  ∃ step sub,
    step ∈ steps
    ∧ truthy (step_spawn step) = Some sub
    ∧ (self sub (indent + 2)).2 = Threw msg
    ∧ last (inspect_steps bold self indent steps).1
      = match last (self sub (indent + 2)).1 with
        | Some ev => Some ev
        | None => Some (writeln indent ("- " +:+ bold sub))
        end.
Proof.
  induction steps as [|step rest IH]; [done|].
  rewrite inspect_steps_cons.
  destruct (truthy (step_spawn step)) as [sub|] eqn:Hspawn.
  - destruct (self sub (indent + 2)) as [tr out] eqn:Hsub.
    destruct out as [|msg'|].
    + destruct (inspect_steps bold self indent rest) as [tr' out'] eqn:Hrest.
      simpl in *. intros Hthrew.
      destruct (IH Hthrew) as (step' & sub' & Hin & Hspawn' & Hout & Hlast).
      exists step', sub'. split; [by right|]. split; [done|]. split; [done|].
      rewrite <- Hlast. rewrite last_cons, last_app.
      destruct (last tr') as [ev|] eqn:Hlast'; [done|].
      by destruct (last (self sub' (indent + 2)).1).
    + simpl. intros [= ->]. exists step, sub.
      split; [by left|]. split; [done|]. rewrite Hsub. split; [done|].
      simpl. by rewrite last_cons.
    + done.
  - destruct (inspect_steps bold self indent rest) as [tr' out'] eqn:Hrest.
    simpl in *. intros Hthrew.
    destruct (IH Hthrew) as (step' & sub' & Hin & Hspawn' & Hout & Hlast).
    exists step', sub'. split; [by right|]. split; [done|]. split; [done|].
    rewrite <- Hlast. rewrite last_app.
    destruct (last tr') as [ev|] eqn:Hlast'; [done|].
    by destruct (last (self sub' (indent + 2)).1).
Qed.

(** What is thrown names a missing task that is reached from the inspected
    one, and the failed lookup is the last event. *)
Lemma inspectTask_threw (fuel : nat) (name : string) (indent : nat) (msg : string) :
  (inspectTask manifest underline bold fuel name indent).2 = Threw msg →
  ∃ missing,
    rtc (spawns manifest) name missing
    ∧ tryFindTask manifest missing = None
    ∧ msg = unresolved_message missing
    ∧ last (inspectTask manifest underline bold fuel name indent).1
      = Some (TryFindTask missing).
Proof.
  revert name indent. induction fuel as [|fuel IH]; intros name indent; [done|].
  rewrite inspectTask_succ.
  destruct (tryFindTask manifest name) as [task|] eqn:Hfind.
  - pose proof (inspect_steps_threw
                  (inspectTask manifest underline bold fuel) indent
                  (default [] (data_steps task)) msg) as Hsteps.
    destruct (inspect_steps bold (inspectTask manifest underline bold fuel)
                indent (default [] (data_steps task))) as [tr out].
    simpl in *. intros Hout.
    destruct (Hsteps Hout) as (step & sub & Hin & Hspawn & Hsub & Hlast).
    destruct (IH sub (indent + 2) Hsub) as (missing & Hreach & Hnone & -> & Hl).
    exists missing. split.
    { eapply rtc_l; [|done]. by exists task, step. }
    split; [done|]. split; [done|].
    rewrite Hl in Hlast. rewrite last_cons, last_app, Hlast. done.
  - simpl. intros [= <-]. exists name. by repeat split.
Qed.

(** X9.  On a manifest without spawn cycles the only error of the
    inspector is an unresolved task: the inspection either finishes, or it
    throws the message that names a task which is not in the manifest and
    which is reached from the inspected task along spawn steps (it may be
    the inspected task itself), and then the failed lookup is the last thing
    that happened: nothing is printed after it. *)
Theorem inspect_threw (name : string) (indent : nat) :
  acyclic manifest →
  (inspect manifest underline bold name indent).2 = Finished
  ∨ ∃ missing,
      rtc (spawns manifest) name missing
      ∧ tryFindTask manifest missing = None
      ∧ (inspect manifest underline bold name indent).2
        = Threw (unresolved_message missing)
      ∧ last (inspect manifest underline bold name indent).1
        = Some (TryFindTask missing).
Proof.
  intros Hacyclic. unfold inspect.
  pose proof (inspectTask_terminates manifest underline bold Hacyclic
                (S (size manifest)) name indent) as Hfuel.
  pose proof (inspectTask_threw (S (size manifest)) name indent) as Hthrew.
  destruct (inspectTask manifest underline bold (S (size manifest)) name indent).2
    as [|msg|]; [by left| |].
  - right. destruct (Hthrew msg eq_refl) as (missing & Hreach & Hnone & -> & Hl).
    by exists missing.
  - by destruct Hfuel; [lia|].
Qed.

(** In a closed manifest every task reached from a task of the manifest is
    in the manifest. *)
Lemma closed_reach a b :
  closed manifest → is_Some (manifest !! a) →
  rtc (spawns manifest) a b → is_Some (manifest !! b).
Proof.
  intros Hclosed Ha Hreach. induction Hreach as [|a b c Hab Hbc IH]; [done|].
  apply IH. by eapply Hclosed.
Qed.

(** X10.  On a manifest without spawn cycles in which every spawned task
    exists, inspecting a task of the manifest finishes normally. *)
Theorem inspect_finishes (name : string) (indent : nat) :
  acyclic manifest →
  closed manifest →
  is_Some (manifest !! name) →
  (inspect manifest underline bold name indent).2 = Finished.
Proof.
  intros Hacyclic Hclosed Hname. unfold inspect.
  pose proof (inspectTask_terminates manifest underline bold Hacyclic
                (S (size manifest)) name indent) as Hfuel.
  pose proof (inspectTask_threw (S (size manifest)) name indent) as Hthrew.
  destruct (inspectTask manifest underline bold (S (size manifest)) name indent).2
    as [|msg|]; [done| |].
  - destruct (Hthrew msg eq_refl) as (missing & Hreach & Hnone & _).
    destruct (closed_reach name missing Hclosed Hname Hreach) as [task Htask].
    unfold tryFindTask in Hnone. by rewrite Htask in Hnone.
  - by destruct Hfuel; [lia|].
Qed.

End InspectorProperties.

Lemma broken_manifest_acyclic : acyclic broken_manifest.
Proof.
  apply (ranked_acyclic _ (λ a, if decide (a = "build") then 1 else 0)).
  intros a b (task & step & Hfind & Hstep & Hspawn).
  unfold tryFindTask, broken_manifest in Hfind.
  apply lookup_singleton_Some in Hfind as [<- <-].
  simpl in Hstep.
  apply elem_of_cons in Hstep as [->|Hstep]; [discriminate Hspawn|].
  apply elem_of_cons in Hstep as [->|Hstep].
  { injection Hspawn as <-. vm_compute. lia. }
  apply elem_of_cons in Hstep as [->|Hstep]; [discriminate Hspawn|].
  by apply elem_of_nil in Hstep.
Qed.

Example broken_manifest_inspected :
  inspect broken_manifest id id "build" 0
  = ([TryFindTask "build";
      ConsoleLog "- exec: echo step1";
      ConsoleLog "- deploy";
      TryFindTask "deploy"], Threw (unresolved_message "deploy")).
Proof. vm_compute. reflexivity. Qed.

Lemma inspect_threw_witness :
  (inspect broken_manifest id id "build" 0).2 = Finished
  ∨ ∃ missing,
      rtc (spawns broken_manifest) "build" missing
      ∧ tryFindTask broken_manifest missing = None
      ∧ (inspect broken_manifest id id "build" 0).2
        = Threw (unresolved_message missing)
      ∧ last (inspect broken_manifest id id "build" 0).1
        = Some (TryFindTask missing).
Proof.
  apply (inspect_threw broken_manifest id id "build" 0).
  exact broken_manifest_acyclic.
Defined.

Lemma sample_manifest_closed : closed sample_manifest.
Proof.
  intros a b (task & step & Hfind & Hstep & Hspawn).
  unfold tryFindTask, sample_manifest in Hfind.
  apply lookup_insert_Some in Hfind as [[<- <-]|[Hne Hfind]].
  - simpl in Hstep.
    apply elem_of_cons in Hstep as [->|Hstep]; [discriminate Hspawn|].
    apply elem_of_cons in Hstep as [->|Hstep]; [|by apply elem_of_nil in Hstep].
    injection Hspawn as <-. by eexists.
  - apply lookup_insert_Some in Hfind as [[<- <-]|[Hne' Hfind]].
    + simpl in Hstep.
      apply elem_of_cons in Hstep as [->|Hstep]; [discriminate Hspawn|].
      by apply elem_of_nil in Hstep.
    + by rewrite lookup_empty in Hfind.
Qed.

Lemma inspect_finishes_witness :
  (inspect sample_manifest id id "build" 0).2 = Finished.
Proof.
  apply (inspect_finishes sample_manifest id id "build" 0).
  - exact sample_manifest_acyclic.
  - exact sample_manifest_closed.
  - by eexists.
Defined.

Section InspectorLayout.

Context (manifest : gmap string TaskSpecData) (underline bold : string → string).

(** ** Indentation *)

Lemma string_app_assoc (a b c : string) : (a +:+ b) +:+ c = a +:+ (b +:+ c).
Proof.
  induction a as [|ch a IH]; [done|].
  change (String ch ((a +:+ b) +:+ c) = String ch (a +:+ (b +:+ c))).
  by rewrite IH.
Qed.

Lemma spaces_add (n m : nat) : spaces (n + m) = spaces n +:+ spaces m.
Proof.
  induction n as [|n IH]; [done|].
  change (String " " (spaces (n + m)) = String " " (spaces n +:+ spaces m)).
  by rewrite IH.
Qed.

(** A line of the header is one of the task's own texts behind [indent]
    spaces. *)
Lemma header_texts indent task line :
  ConsoleLog line ∈ header underline indent task →
  ∃ text, text ∈ own_texts underline bold task
          ∧ line = spaces indent +:+ text.
Proof.
  unfold header, own_texts. intros [Hin|Hin]%elem_of_app.
  - destruct (truthy (data_description task)) as [d|];
      [|by apply elem_of_nil in Hin].
    apply list_elem_of_singleton in Hin. injection Hin as ->.
    eexists. split; [|done]. apply elem_of_app. left.
    apply list_elem_of_here.
  - apply list_elem_of_fmap in Hin as (kv & Heq & Hkv).
    injection Heq as ->.
    eexists. split; [|done]. apply elem_of_app. right.
    apply elem_of_app. left.
    apply list_elem_of_fmap. by exists kv.
Qed.

(** A line of the loop over the steps is the text of one of these steps
    behind [indent] spaces, or it was printed by the call for a spawned
    subtask, which was made with [indent + 2]. *)
Lemma inspect_steps_lines self indent steps line :
  ConsoleLog line ∈ (inspect_steps bold self indent steps).1 →
  (∃ text, text ∈ flat_map (step_text bold) steps
           ∧ line = spaces indent +:+ text)
  ∨ (∃ step sub, step ∈ steps
                 ∧ truthy (step_spawn step) = Some sub
                 ∧ ConsoleLog line ∈ (self sub (indent + 2)).1).
Proof.
  induction steps as [|step rest IH].
  { intros Hin. by apply elem_of_nil in Hin. }
  rewrite inspect_steps_cons.
  assert (ConsoleLog line ∈ (inspect_steps bold self indent rest).1 →
          (∃ text, text ∈ flat_map (step_text bold) (step :: rest)
                   ∧ line = spaces indent +:+ text)
          ∨ (∃ step' sub, step' ∈ step :: rest
                          ∧ truthy (step_spawn step') = Some sub
                          ∧ ConsoleLog line ∈ (self sub (indent + 2)).1))
    as Hrest.
  { intros [(text & Hin & ->)|(step' & sub & Hin & Hspawn & Hline)]%IH.
    - left. exists text. split; [|done].
      change (text ∈ step_text bold step ++ flat_map (step_text bold) rest).
      apply elem_of_app. by right.
    - right. exists step', sub. split; [by apply list_elem_of_further|done]. }
  assert (∀ text, text ∈ step_text bold step →
          ∃ text', text' ∈ flat_map (step_text bold) (step :: rest)
                   ∧ spaces indent +:+ text = spaces indent +:+ text')
    as Hown.
  { intros text Hin. exists text. split; [|done].
    change (text ∈ step_text bold step ++ flat_map (step_text bold) rest).
    apply elem_of_app. by left. }
  destruct (inspect_steps bold self indent rest) as [tr' out'].
  destruct (truthy (step_spawn step)) as [sub|] eqn:Hspawn.
  - assert (ConsoleLog line ∈ (self sub (indent + 2)).1 →
            ∃ step' sub', step' ∈ step :: rest
                          ∧ truthy (step_spawn step') = Some sub'
                          ∧ ConsoleLog line ∈ (self sub' (indent + 2)).1)
      as Hsub.
    { intros Hin. exists step, sub. split; [apply list_elem_of_here|done]. }
    assert ("- " +:+ bold sub ∈ step_text bold step) as Htext.
    { unfold step_text. rewrite Hspawn. apply list_elem_of_here. }
    destruct (self sub (indent + 2)) as [tr out].
    destruct out; simpl in *.
    + intros [Hin|[Hin|Hin]%elem_of_app]%elem_of_cons; eauto.
      injection Hin as ->. left. by apply Hown.
    + intros [Hin|Hin]%elem_of_cons; eauto.
      injection Hin as ->. left. by apply Hown.
    + intros [Hin|Hin]%elem_of_cons; eauto.
      injection Hin as ->. left. by apply Hown.
  - simpl in *. intros [Hin|Hin]%elem_of_app; eauto.
    destruct (truthy (step_exec step)) as [c|] eqn:Hexec.
    { apply list_elem_of_singleton in Hin. injection Hin as ->.
      left. apply Hown. unfold step_text. rewrite Hspawn, Hexec.
      apply list_elem_of_here. }
    destruct (truthy (step_builtin step)) as [b|] eqn:Hbuiltin;
      [|by apply elem_of_nil in Hin].
    apply list_elem_of_singleton in Hin. injection Hin as ->.
    left. apply Hown. unfold step_text. rewrite Hspawn, Hexec, Hbuiltin.
    apply list_elem_of_here.
Qed.

(** X11.  The argument of every [console.log] call that
    [inspectTask(name, indent)] makes is a text of a task reached from
    [name] along spawn steps (the description, an environment entry or the
    line of a step of that task), behind two more spaces for every such
    spawn step: a task [depth] spawn steps away from [name] is written with
    [indent + 2 * depth] spaces in front. *)
Theorem inspect_indented (fuel : nat) (name : string) (indent : nat)
    (line : string) :
  ConsoleLog line ∈ (inspectTask manifest underline bold fuel name indent).1 →
  ∃ (depth : nat) (owner : string) (task : TaskSpecData) (text : string),
    nsteps (spawns manifest) depth name owner
    ∧ tryFindTask manifest owner = Some task
    ∧ text ∈ own_texts underline bold task
    ∧ line = spaces (indent + 2 * depth) +:+ text.
Proof.
  revert name indent line.
  induction fuel as [|fuel IH]; intros name indent line.
  { intros Hin. by apply elem_of_nil in Hin. }
  rewrite inspectTask_succ.
  destruct (tryFindTask manifest name) as [task|] eqn:Hfind.
  - pose proof (inspect_steps_lines
                  (inspectTask manifest underline bold fuel) indent
                  (default [] (data_steps task)) line) as Hsteps.
    destruct (inspect_steps bold (inspectTask manifest underline bold fuel)
                indent (default [] (data_steps task))) as [tr out].
    simpl in Hsteps. simpl.
    intros [Hin|[Hin|Hin]%elem_of_app]%elem_of_cons; [done| |].
    + apply header_texts in Hin as (text & Hin & ->).
      exists 0, name, task, text.
      split; [constructor|]. split; [done|]. split; [done|].
      f_equal. f_equal. lia.
    + destruct (Hsteps Hin) as [(text & Hown & ->)
                               |(step & sub & Hstep & Hspawn & Hline)].
      * exists 0, name, task, text.
        split; [constructor|]. split; [done|].
        split.
        { unfold own_texts. apply elem_of_app. right.
          apply elem_of_app. by right. }
        f_equal. f_equal. lia.
      * apply IH in Hline as (depth & owner & task' & text & Hreach & Hfind'
                              & Hown & ->).
        exists (S depth), owner, task', text.
        split.
        { eapply nsteps_l; [|done]. by exists task, step. }
        split; [done|]. split; [done|].
        f_equal. f_equal. lia.
  - simpl. intros Hin. apply list_elem_of_singleton in Hin. done.
Qed.

(** ** Steps without a line *)

Lemma inspect_steps_silent self indent pre step post :
  silent step →
  inspect_steps bold self indent (pre ++ step :: post)
  = inspect_steps bold self indent (pre ++ post).
Proof.
  intros (Hspawn & Hexec & Hbuiltin).
  induction pre as [|step0 pre IH].
  - rewrite !app_nil_l, inspect_steps_cons, Hspawn, Hexec, Hbuiltin. simpl.
    by destruct (inspect_steps bold self indent post).
  - rewrite <- !app_comm_cons, !inspect_steps_cons. by rewrite IH.
Qed.

Lemma say_step_silent message options : silent (say_step message options).
Proof. done. Qed.

(** X12.  The inspector has no line for a [say] step, nor for any step
    without a [spawn], [exec] or [builtin] it can test: putting such a step
    anywhere into the steps of any task of the manifest changes nothing in
    what [inspectTask] does, for any task inspected. *)
Theorem silent_step_unseen (n : string) (task : TaskSpecData) (i : nat)
    (step : TaskStep) (fuel : nat) (name : string) (indent : nat) :
  manifest !! n = Some task →
  silent step →
  inspectTask (<[n := with_step_at i step task]> manifest) underline bold
    fuel name indent
  = inspectTask manifest underline bold fuel name indent.
Proof.
  intros Hn Hsilent. revert name indent.
  induction fuel as [|fuel IH]; intros name indent; [done|].
  rewrite !inspectTask_succ. unfold tryFindTask.
  destruct (decide (n = name)) as [->|Hne].
  - rewrite lookup_insert_eq, Hn.
    change (header underline indent (with_step_at i step task))
      with (header underline indent task).
    change (default [] (data_steps (with_step_at i step task)))
      with (take i (default [] (data_steps task)) ++ step
            :: drop i (default [] (data_steps task))).
    rewrite inspect_steps_silent, take_drop by done.
    by rewrite (inspect_steps_ext bold _
                  (inspectTask manifest underline bold fuel)).
  - rewrite lookup_insert_ne by done.
    destruct (manifest !! name) as [task'|]; [|done].
    by rewrite (inspect_steps_ext bold _
                  (inspectTask manifest underline bold fuel)).
Qed.

End InspectorLayout.

Lemma inspect_indented_witness :
  ∃ (depth : nat) (owner : string) (task : TaskSpecData) (text : string),
    nsteps (spawns sample_manifest) depth "build" owner
    ∧ tryFindTask sample_manifest owner = Some task
    ∧ text ∈ own_texts id id task
    ∧ "  - exec: echo step2" = spaces (0 + 2 * depth) +:+ text.
Proof.
  apply (inspect_indented sample_manifest id id 3 "build" 0).
  assert ((inspectTask sample_manifest id id 3 "build" 0).1
          = [TryFindTask "build";
             ConsoleLog "- exec: echo step1";
             ConsoleLog "- sub";
             TryFindTask "sub";
             ConsoleLog "  - exec: echo step2"]) as ->
    by (vm_compute; reflexivity).
  do 4 apply list_elem_of_further. apply list_elem_of_here.
Defined.

Lemma silent_step_unseen_witness :
  inspectTask (<["sub" := with_step_at 1 (say_step "done" no_options)
                            (data_task "sub" [exec_step "echo step2" no_options])]>
                 sample_manifest) id id 3 "build" 0
  = inspectTask sample_manifest id id 3 "build" 0.
Proof.
  apply (silent_step_unseen sample_manifest id id "sub").
  - reflexivity.
  - apply say_step_silent.
Defined.


(** * A caller: the publish task *)

Lemma bind_return {A B} (c : M A) (k : A → M B) σ a σ' :
  c σ = Return a σ' → bind c k σ = k a σ'.
Proof. intros H. unfold bind. by rewrite H. Qed.

Lemma builtin_at σ t T l e n :
  task_at σ t T l e →
  _locked T = false →
  Task.builtin t n σ
  = Return tt (with_arrays σ (<[_steps T := l ++ [builtin_step n]]> (arrays σ))).
Proof. intros Hat Hl. by apply (invoke_append σ t T l e (Builtin n)). Qed.

Lemma exec_at σ t T l e c o :
  task_at σ t T l e →
  _locked T = false →
  Task.exec t c o σ
  = Return tt (with_arrays σ (<[_steps T := l ++ [exec_step c o]]> (arrays σ))).
Proof. intros Hat Hl. by apply (invoke_append σ t T l e (Exec c o)). Qed.

(** X13.  The publish task.  Provided [addTask] makes the task with the
    [Task] constructor (the task name is not taken), [publishToGit] returns
    an unlocked task named "publish:git", with ":" and the branch appended
    unless the branch is "main", "master" or not given; its environment has
    the four file variables; and its steps are, in this order, the changelog
    builtin if a non-empty project changelog is given, the tagging builtin,
    and the push command -- the given one, the default
    "git push --follow-tags origin <branch>" when none is given, and no step
    at all when the given command is the empty string. *)
Theorem publishToGit_task (addTask : string → TaskOptions → M loc)
    (options : GitPublishOptions) (σ : heap) :
  (∀ n props σ0, addTask n props σ0 = Task.constructor n props σ0) →
  ∃ t σ' T,
    publishToGit addTask options σ = Return t σ'
    ∧ tasks σ !! t = None
    ∧ tasks σ' !! t = Some T
    ∧ _locked T = false
    ∧ name T = match gitBranch options with
               | None => "publish:git"
               | Some branch =>
                 if bool_decide (branch = "main") || bool_decide (branch = "master")
                 then "publish:git"
                 else "publish:git:" +:+ branch
               end
    ∧ _description T = Some publish_git_description
    ∧ env_of σ' t = Some (publish_env options)
    ∧ steps_of σ' t
      = Some (match truthy (projectChangelogFile options) with
              | Some _ => [builtin_step "release/update-changelog"]
              | None => []
              end
              ++ [builtin_step "release/tag-version"]
              ++ match gitPushCommand options with
                 | Some EmptyString => []
                 | Some command => [exec_step command no_options]
                 | None =>
                   [exec_step ("git push --follow-tags origin "
                               +:+ default "main" (gitBranch options)) no_options]
                 end).
Proof.
  intros Hadd.
  set (props := {| props_description := Some publish_git_description;
                   props_env := Some (fresh (dom (objects σ)));
                   props_condition := None; props_cwd := None;
                   props_requiredEnv := None; props_exec := None |}).
  set (σ1 := with_objects σ (<[fresh (dom (objects σ)) := publish_env options]>
                               (objects σ))).
  set (t := fresh (dom (tasks σ))).
  set (T := new_fields (publish_task_name options) props σ1).
  set (σ2 := {| arrays := <[fresh (dom (arrays σ1)) := []]> (arrays σ1);
                objects := objects σ1;
                tasks := <[t := T]> (tasks σ1);
                strings := strings σ1 |}).
  assert (task_at σ2 t T [] (publish_env options)) as Hat.
  { split; [apply lookup_insert_eq|]. split; apply lookup_insert_eq. }
  assert (_locked T = false) as Hl by done.
  assert (∀ σ3 l, task_at σ3 t T l (publish_env options) →
            tasks σ3 = tasks σ2 →
            ∃ σ', (match gitPushCommand options with
                   | Some EmptyString => ret tt
                   | _ =>
                     Task.exec t
                       match truthy (gitPushCommand options) with
                       | Some command => command
                       | None => "git push --follow-tags origin "
                                 +:+ publish_branch options
                       end no_options
                   end ;; ret t) σ3 = Return t σ'
                  ∧ tasks σ' = tasks σ2
                  ∧ env_of σ' t = Some (publish_env options)
                  ∧ steps_of σ' t
                    = Some (l ++ match gitPushCommand options with
                                 | Some EmptyString => []
                                 | Some command => [exec_step command no_options]
                                 | None =>
                                   [exec_step ("git push --follow-tags origin "
                                               +:+ default "main" (gitBranch options))
                                      no_options]
                                 end)) as Hpush.
  { intros σ3 l Hat3 Htasks.
    destruct (gitPushCommand options) as [[|ch command]|].
    - eexists. split; [done|]. split; [done|].
      split; [by eapply env_of_at|]. rewrite app_nil_r. by eapply steps_of_at.
    - eexists. split; [by erewrite bind_return by by eapply exec_at|].
      pose proof (task_at_written _ _ _ _ _
                    (l ++ [exec_step (String ch command) no_options]) Hat3)
        as Hat4.
      split; [done|]. split; [by eapply env_of_at|]. by eapply steps_of_at.
    - eexists. split; [by erewrite bind_return by by eapply exec_at|].
      pose proof (task_at_written _ _ _ _ _
                    (l ++ [exec_step ("git push --follow-tags origin "
                                      +:+ publish_branch options) no_options])
                    Hat3) as Hat4.
      split; [done|]. split; [by eapply env_of_at|]. by eapply steps_of_at. }
  assert (∀ σ3 l, task_at σ3 t T l (publish_env options) →
            tasks σ3 = tasks σ2 →
            ∃ σ', (Task.builtin t "release/tag-version" ;;
                   match gitPushCommand options with
                   | Some EmptyString => ret tt
                   | _ =>
                     Task.exec t
                       match truthy (gitPushCommand options) with
                       | Some command => command
                       | None => "git push --follow-tags origin "
                                 +:+ publish_branch options
                       end no_options
                   end ;; ret t) σ3 = Return t σ'
                  ∧ tasks σ' = tasks σ2
                  ∧ env_of σ' t = Some (publish_env options)
                  ∧ steps_of σ' t
                    = Some (l ++ [builtin_step "release/tag-version"]
                            ++ match gitPushCommand options with
                               | Some EmptyString => []
                               | Some command => [exec_step command no_options]
                               | None =>
                                 [exec_step ("git push --follow-tags origin "
                                             +:+ default "main" (gitBranch options))
                                    no_options]
                               end)) as Htag.
  { intros σ3 l Hat3 Htasks.
    pose proof (task_at_written _ _ _ _ _
                  (l ++ [builtin_step "release/tag-version"]) Hat3) as Hat4.
    destruct (Hpush _ _ Hat4 Htasks) as (σ' & Hrun & Htasks' & Henv & Hsteps).
    exists σ'. split; [by erewrite bind_return by by eapply builtin_at|].
    split; [done|]. split; [done|]. by rewrite Hsteps, <- app_assoc. }
  assert (∃ σ', publishToGit addTask options σ = Return t σ'
                ∧ tasks σ' = tasks σ2
                ∧ env_of σ' t = Some (publish_env options)
                ∧ steps_of σ' t
                  = Some (match truthy (projectChangelogFile options) with
                          | Some _ => [builtin_step "release/update-changelog"]
                          | None => []
                          end
                          ++ [builtin_step "release/tag-version"]
                          ++ match gitPushCommand options with
                             | Some EmptyString => []
                             | Some command => [exec_step command no_options]
                             | None =>
                               [exec_step ("git push --follow-tags origin "
                                           +:+ default "main" (gitBranch options))
                                  no_options]
                             end)) as (σ' & Hrun & Htasks & Henv & Hsteps).
  { unfold publishToGit.
    erewrite bind_return by reflexivity.
    erewrite bind_return by (rewrite Hadd; apply constructor_spec).
    fold props σ1 t T σ2.
    destruct (truthy (projectChangelogFile options)) as [file|].
    - pose proof (task_at_written _ _ _ _ _
                    ([] ++ [builtin_step "release/update-changelog"]) Hat)
        as Hat3.
      destruct (Htag _ _ Hat3 eq_refl) as (σ' & Hrun & Htasks' & Henv & Hsteps).
      exists σ'. split; [by erewrite bind_return by by eapply builtin_at|].
      done.
    - destruct (Htag _ _ Hat eq_refl) as (σ' & Hrun & Htasks' & Henv & Hsteps).
      exists σ'. split; [by erewrite bind_return by reflexivity|]. done. }
  exists t, σ', T. split; [done|].
  split; [apply fresh_lookup|].
  split; [rewrite Htasks; apply lookup_insert_eq|].
  split; [done|]. split; [|done].
  simpl. unfold publish_task_name, publish_branch.
  by destruct (gitBranch options) as [branch|].
Qed.

Lemma publishToGit_task_witness :
  ∃ t σ' T,
    publishToGit Task.constructor sample_publish_options build_heap = Return t σ'
    ∧ tasks build_heap !! t = None
    ∧ tasks σ' !! t = Some T
    ∧ _locked T = false
    ∧ name T = "publish:git:v2"
    ∧ _description T = Some publish_git_description
    ∧ env_of σ' t = Some (publish_env sample_publish_options)
    ∧ steps_of σ' t
      = Some ([builtin_step "release/update-changelog"]
              ++ [builtin_step "release/tag-version"] ++ []).
Proof.
  apply (publishToGit_task Task.constructor sample_publish_options build_heap).
  done.
Defined.
